(** * AIremixer: the in-memory track store and the regeneration protocol

    A shallow embedding of [server/storage.ts] (class [MemStorage]) and of the
    regenerate-button guard of [client/src/components/TrackView.tsx], with the
    properties the specification states about them.

    JavaScript objects are finite maps from property names to values, so the
    object spread [{...a, ...b}] is a right-biased merge.  The class's
    [Map<number, AudioTrack>] is a finite map keyed by integers.  Methods
    thread the store explicitly: a method is a function
    [MemStorage -> result * MemStorage]. *)

From Stdlib Require Import Ascii.
From stdpp Require Import gmap strings list sorting pretty.

Local Open Scope string_scope.
Set Warnings "-register-all".

(** ** JavaScript values and objects *)

Inductive value :=
| VUndefined
| VNull
| VBool (b : bool)
| VNum (n : Z)
| VStr (s : string)
| VArr (items : list value)
| VObj (fields : list (string * value)).

(** An object, as far as property reads and spreads go. *)
Abbreviation obj := (gmap string value).

(** An object literal [{ ...base, k1: v1, ..., kn: vn }]: properties are
    written left to right, a later one replaces an earlier one. *)
Definition obj_literal (base : obj) (props : list (string * value)) : obj :=
  foldl (fun o kv => <[kv.1 := kv.2]> o) base props.

(** What the properties [props], written over a property whose value so far
    is [acc], leave under the name [k]. *)
Fixpoint written (props : list (string * value)) (k : string)
  (acc : option value) : option value :=
  match props with
  | [] => acc
  | (k', v) :: rest => written rest k (if String.eqb k' k then Some v else acc)
  end.

(** [{ ...earlier, ...later }]. *)
Definition spread (earlier later : obj) : obj := later ∪ earlier.

(** [o.status === s] for a string literal [s]. *)
Definition status_is (o : obj) (s : string) : bool :=
  match o !! "status" with
  | Some (VStr x) => String.eqb x s
  | _ => false
  end.

(** [o.extendedPaths || []], the list of stored extended-mix versions
    ([extendedPaths] is an array, null or missing). *)
Definition extendedPaths (o : obj) : list value :=
  match o !! "extendedPaths" with
  | Some (VArr l) => l
  | _ => []
  end.

(** [o.extendedDurations || []]. *)
Definition extendedDurations (o : obj) : list value :=
  match o !! "extendedDurations" with
  | Some (VArr l) => l
  | _ => []
  end.

(** [o.extendedPaths?.length || 0]. *)
Definition extendedPaths_length (o : obj) : Z :=
  match o !! "extendedPaths" with
  | Some (VArr l) => Z.of_nat (length l)
  | _ => 0%Z
  end.

(** The [id] property when it is a number. *)
Definition track_id (o : obj) : option Z :=
  match o !! "id" with
  | Some (VNum k) => Some k
  | _ => None
  end.

(** ** server/storage.ts: class MemStorage (the track half)

    The [users] map and its counter are independent of the track methods and
    are left out.  Ids are JavaScript numbers that start at 1 and grow by 1;
    such arithmetic is exact as long as they stay below 2^53, and they are
    taken as integers. *)

Record MemStorage := mkMemStorage {
  tracks : gmap Z obj;
  trackIdCounter : Z
}.

(** [constructor()] *)
Definition new_MemStorage : MemStorage :=
  {| tracks := ∅; trackIdCounter := 1 |}.

(** [getAudioTrack(id)]: [return this.tracks.get(id)]. *)
Definition getAudioTrack (id : Z) (s : MemStorage) : option obj * MemStorage :=
  (tracks s !! id, s).

(** [createAudioTrack(track)] *)
Definition createAudioTrack (track : obj) (s : MemStorage) : obj * MemStorage :=
  let id := trackIdCounter s in
  let newTrack :=
    obj_literal track
      [ ("id", VNum id);
        ("extendedPath", VNull);
        ("duration", VNull);
        ("extendedDuration", VNull);
        ("bpm", VNull);
        ("key", VNull);
        ("format", VNull);
        ("bitrate", VNull);
        ("status", VStr "uploaded");
        ("settings", VNull) ] in
  (newTrack,
   {| tracks := <[id := newTrack]> (tracks s);
      trackIdCounter := (trackIdCounter s + 1)%Z |}).

(** [updateAudioTrack(id, update)] *)
Definition updateAudioTrack (id : Z) (update : obj) (s : MemStorage)
  : option obj * MemStorage :=
  match tracks s !! id with
  | None => (None, s)
  | Some track =>
      let updatedTrack := spread track update in
      (Some updatedTrack,
       {| tracks := <[id := updatedTrack]> (tracks s);
          trackIdCounter := trackIdCounter s |})
  end.

(** [track.userId === userId] *)
Definition userId_is (o : obj) (userId : Z) : bool :=
  match o !! "userId" with
  | Some (VNum u) => Z.eqb u userId
  | _ => false
  end.

(** [Array.from(this.tracks.values())]: a [Map] iterates in insertion order.
    Every key of [tracks] is inserted by [createAudioTrack] from the
    increasing counter and a later [set] keeps its place, so the insertion
    order is the ascending order of the ids. *)
Definition tracks_values (s : MemStorage) : list obj :=
  omap (fun k => tracks s !! k) (merge_sort Z.le (elements (dom (tracks s)))).

(** [getAudioTracksByUserId(userId)] *)
Definition getAudioTracksByUserId (userId : Z) (s : MemStorage)
  : list obj * MemStorage :=
  (List.filter (fun t => userId_is t userId) (tracks_values s), s).

(** Every stored id was handed out by the counter. *)
Definition store_wf (s : MemStorage) : Prop :=
  forall k, is_Some (tracks s !! k) -> (k < trackIdCounter s)%Z.

(** A sequence of calls on the store, and the ids its creations assign. *)
Inductive store_call :=
| CallCreate (track : obj)
| CallUpdate (id : Z) (update : obj)
| CallGet (id : Z)
| CallList (userId : Z).

Inductive store_reply :=
| ReplyTrack (t : option obj)
| ReplyList (l : list obj).

Definition perform (c : store_call) (s : MemStorage) : store_reply * MemStorage :=
  match c with
  | CallCreate track =>
      let '(t, s') := createAudioTrack track s in (ReplyTrack (Some t), s')
  | CallUpdate id update =>
      let '(r, s') := updateAudioTrack id update s in (ReplyTrack r, s')
  | CallGet id =>
      let '(r, s') := getAudioTrack id s in (ReplyTrack r, s')
  | CallList userId =>
      let '(l, s') := getAudioTracksByUserId userId s in (ReplyList l, s')
  end.

(** The [id] of each record returned by a [createAudioTrack] of the run, in
    call order. *)
Fixpoint created_ids (cs : list store_call) (s : MemStorage) : list Z :=
  match cs with
  | [] => []
  | c :: cs' =>
      let '(r, s') := perform c s in
      match c, r with
      | CallCreate _, ReplyTrack (Some t) => option_list (track_id t)
      | _, _ => []
      end ++ created_ids cs' s'
  end.

(** ** client/src/components/TrackView.tsx: the regenerate button *)

(** [disabled={track.status === "processing" || isProcessing}], the
    single-version variant of the component. *)
Definition regenerate_disabled_v1 (track : obj) (isProcessing : bool) : bool :=
  status_is track "processing" || isProcessing.

(** [disabled={track.status === "processing" || isProcessing ||
    (track.extendedPaths?.length || 0) >= 4}], the multi-version variant. *)
Definition regenerate_disabled (track : obj) (isProcessing : bool) : bool :=
  status_is track "processing" || isProcessing
  || (4 <=? extendedPaths_length track)%Z.

(** Modelled from the spec: the bulk clear of the Track Store, which
    [MemStorage] as given does not declare (the client reaches it through
    [DELETE /api/tracks]).  Section 4.1 gives [ClearAll() -> count]; section 3
    says it removes all tracks of the store and that ids are never reused, so
    the counter is kept. *)
Definition clearAll (s : MemStorage) : Z * MemStorage :=
  (Z.of_nat (size (tracks s)),
   {| tracks := ∅; trackIdCounter := trackIdCounter s |}).

(** Modelled from the spec: the status poll, whose route is not among the
    sources.  Section 4.4 gives [Check(trackId) -> {status,
    currentVersionCount}], a read of the store. *)
Definition status_check (id : Z) (s : MemStorage) : option (value * Z) * MemStorage :=
  let '(r, s') := getAudioTrack id s in
  (match r with
   | Some t => Some (default VUndefined (t !! "status"), extendedPaths_length t)
   | None => None
   end, s').

(** [n] polls in a row, nothing in between. *)
Fixpoint poll (n : nat) (id : Z) (s : MemStorage)
  : list (option (value * Z)) * MemStorage :=
  match n with
  | O => ([], s)
  | S n' =>
      let '(r, s1) := status_check id s in
      let '(rs, s2) := poll n' id s1 in
      (r :: rs, s2)
  end.

(** [n] reads of the same record in a row. *)
Fixpoint read (n : nat) (id : Z) (s : MemStorage)
  : list (option obj) * MemStorage :=
  match n with
  | O => ([], s)
  | S n' =>
      let '(r, s1) := getAudioTrack id s in
      let '(rs, s2) := read n' id s1 in
      (r :: rs, s2)
  end.

(** ** The generation coordinator

    The server routes that accept a regeneration request and record its
    outcome are not among the sources; the coordinator below follows
    sections 4.2 and 4.3 of the specification and works on the store through
    [getAudioTrack] and [updateAudioTrack] only. *)

(** The cap of section 3; the client's guard has the same literal. *)
Definition MAX_VERSIONS : Z := 4.

(** The errors of section 7 that the coordinator returns. *)

Inductive error :=
| NotFound
| AlreadyProcessing
| CapacityExceeded.

Inductive result (A : Type) :=
| Ok (a : A)
| Err (e : error).
Arguments Ok {A} a.
Arguments Err {A} e.

(** Modelled from the spec: the [InsertAudioTrack] type of [@shared/schema],
    whose declaration is not among the sources.  Section 4.1 gives
    [Create(ownerId, originalMeta)]; the original metadata known at upload are
    the file name and the path. *)
Record InsertAudioTrack := mkInsertAudioTrack {
  userId : value;
  originalFilename : string;
  originalPath : string
}.

Definition insert_obj (i : InsertAudioTrack) : obj :=
  obj_literal ∅
    [ ("originalFilename", VStr (originalFilename i));
      ("originalPath", VStr (originalPath i));
      ("userId", userId i) ].

(** Modelled from the spec: what the Audio Engine reports on success
    (section 6): [{artifactPath, durationSeconds, bpm?, key?, format?,
    bitrate?}]. *)
Record EngineOutput := mkEngineOutput {
  artifactPath : string;
  durationSeconds : Z;
  reported_bpm : option Z;
  reported_key : option string;
  reported_format : option string;
  reported_bitrate : option Z
}.

(** Modelled from the spec: the metadata of an engine report as a patch
    ("update bpm etc. if newly reported", section 4.3): a property is present
    only when it was reported. *)
Definition metadata_patch (out : EngineOutput) : obj :=
  obj_literal ∅
    (omap (fun p => p)
       [ (fun b => ("bpm", VNum b)) <$> reported_bpm out;
         (fun k => ("key", VStr k)) <$> reported_key out;
         (fun f => ("format", VStr f)) <$> reported_format out;
         (fun b => ("bitrate", VNum b)) <$> reported_bitrate out ]).

(** Modelled from the spec: the coordinator owns the store and launches the
    Audio Engine; the launches are logged (track id and the settings
    snapshot) so that "the engine was invoked" is a fact about the state. *)
Record Coordinator := mkCoordinator {
  storage : MemStorage;
  engine_calls : list (Z * value)
}.

Definition new_Coordinator : Coordinator :=
  {| storage := new_MemStorage; engine_calls := [] |}.

(** Modelled from the spec: the partial updates the coordinator writes.
    The sources name the statuses "uploaded", "processing" and "completed";
    the status of a failed generation is not named there and is taken to be
    "failed". *)
Definition append_patch (t : obj) (path : string) (duration : Z) : obj :=
  obj_literal ∅
    [ ("extendedPaths", VArr (extendedPaths t ++ [VStr path]));
      ("extendedDurations", VArr (extendedDurations t ++ [VNum duration])) ].

Definition submit_patch (settings : value) : obj :=
  obj_literal ∅ [ ("status", VStr "processing"); ("settings", settings) ].

Definition status_patch (st : string) : obj :=
  obj_literal ∅ [ ("status", VStr st) ].

Definition completed_patch (out : EngineOutput) : obj :=
  spread (metadata_patch out) (status_patch "completed").

(** Modelled from the spec: [Append(trackId, version) -> index |
    CapacityExceeded] of the Version Ledger (section 4.2), on the parallel
    arrays [extendedPaths] and [extendedDurations] the client reads. *)
Definition Append (id : Z) (path : string) (duration : Z) (s : MemStorage)
  : result Z * MemStorage :=
  match getAudioTrack id s with
  | (None, s1) => (Err NotFound, s1)
  | (Some t, s1) =>
      if (MAX_VERSIONS <=? extendedPaths_length t)%Z
      then (Err CapacityExceeded, s1)
      else
        let '(_, s2) := updateAudioTrack id (append_patch t path duration) s1 in
        (Ok (extendedPaths_length t), s2)
  end.

(** Modelled from the spec: [Submit(trackId, settings)] (section 4.3), one
    indivisible step: the guard (not already processing, fewer than
    [MAX_VERSIONS] versions), then the status write with the settings, then
    the launch. *)
Definition Submit (id : Z) (settings : value) (c : Coordinator)
  : result unit * Coordinator :=
  match getAudioTrack id (storage c) with
  | (None, _) => (Err NotFound, c)
  | (Some t, s1) =>
      if status_is t "processing" then (Err AlreadyProcessing, c)
      else if (MAX_VERSIONS <=? extendedPaths_length t)%Z
      then (Err CapacityExceeded, c)
      else
        let '(_, s2) := updateAudioTrack id (submit_patch settings) s1 in
        (Ok tt,
         {| storage := s2;
            engine_calls := engine_calls c ++ [(id, settings)] |})
  end.

(** Modelled from the spec: the engine's outcome is written back only for a
    track that is processing.  On success the version is appended first and
    the status flipped after (section 5); should the ledger refuse the
    version, the generation is recorded as failed and the ledger is left as it
    was. *)
Definition engine_success (id : Z) (out : EngineOutput) (c : Coordinator)
  : Coordinator :=
  match getAudioTrack id (storage c) with
  | (Some t, s1) =>
      if status_is t "processing" then
        match Append id (artifactPath out) (durationSeconds out) s1 with
        | (Ok _, s2) =>
            {| storage := (updateAudioTrack id (completed_patch out) s2).2;
               engine_calls := engine_calls c |}
        | (Err _, s2) =>
            {| storage := (updateAudioTrack id (status_patch "failed") s2).2;
               engine_calls := engine_calls c |}
        end
      else c
  | (None, _) => c
  end.

(** Modelled from the spec: an engine failure is recorded as the status of
    a track that is processing and leaves the ledger alone. *)
Definition engine_failure (id : Z) (c : Coordinator) : Coordinator :=
  match getAudioTrack id (storage c) with
  | (Some t, s1) =>
      if status_is t "processing" then
        {| storage := (updateAudioTrack id (status_patch "failed") s1).2;
           engine_calls := engine_calls c |}
      else c
  | (None, _) => c
  end.

(** Modelled from the spec: what can happen to the system, one indivisible
    step each (uploads, submissions, the engine's outcomes, polls and the bulk
    clear). *)
Inductive event :=
| EvCreate (i : InsertAudioTrack)
| EvSubmit (id : Z) (settings : value)
| EvEngineSuccess (id : Z) (out : EngineOutput)
| EvEngineFailure (id : Z)
| EvCheck (id : Z)
| EvClearAll.

Definition step (ev : event) (c : Coordinator) : Coordinator :=
  match ev with
  | EvCreate i =>
      {| storage := (createAudioTrack (insert_obj i) (storage c)).2;
         engine_calls := engine_calls c |}
  | EvSubmit id settings => (Submit id settings c).2
  | EvEngineSuccess id out => engine_success id out c
  | EvEngineFailure id => engine_failure id c
  | EvCheck id =>
      {| storage := (status_check id (storage c)).2;
         engine_calls := engine_calls c |}
  | EvClearAll =>
      {| storage := (clearAll (storage c)).2;
         engine_calls := engine_calls c |}
  end.

Fixpoint run (evs : list event) (c : Coordinator) : Coordinator :=
  match evs with
  | [] => c
  | ev :: evs' => run evs' (step ev c)
  end.

Definition reachable (c : Coordinator) : Prop :=
  exists evs, c = run evs new_Coordinator.

(** The version cap of a record, with what makes it inductive: a track that
    is processing still has room for the version under way. *)
Definition record_bounded (t : obj) : Prop :=
  (extendedPaths_length t <= MAX_VERSIONS)%Z /\
  (status_is t "processing" = true ->
   (extendedPaths_length t < MAX_VERSIONS)%Z).

Definition versions_bounded (s : MemStorage) : Prop :=
  forall id t, tracks s !! id = Some t -> record_bounded t.

(** A run of [updateAudioTrack] calls on one id. *)
Definition updates (id : Z) (patches : list obj) (s : MemStorage) : MemStorage :=
  foldl (fun s' patch => (updateAudioTrack id patch s').2) s patches.









(** ** Concrete inputs *)

(** A concrete upload, and an upload whose caller also supplies derived
    fields. *)
Definition upload_song : InsertAudioTrack :=
  {| userId := VNum 7; originalFilename := "song.mp3";
     originalPath := "uploads/song.mp3" |}.

Definition upload_with_extras : obj :=
  obj_literal (insert_obj upload_song)
    [ ("bpm", VNum 128); ("status", VStr "completed"); ("format", VStr "mp3") ].

(** An upload whose caller supplies a version list of its own. *)
Definition upload_with_versions : obj :=
  obj_literal (insert_obj upload_song)
    [ ("extendedPaths", VArr [VStr "old.mp3"]) ].

(** A store with two tracks, the first of them already analysed. *)
Definition two_tracks : MemStorage :=
  let s1 := (createAudioTrack (insert_obj upload_song) new_MemStorage).2 in
  let s2 := (createAudioTrack upload_with_extras s1).2 in
  (updateAudioTrack 1
     (obj_literal ∅ [ ("bpm", VNum 124); ("key", VStr "Am") ]) s2).2.

Definition analysed_patch : obj :=
  obj_literal ∅ [ ("status", VStr "completed"); ("duration", VNum 215) ].

(** The scenario of section 8: an upload, then four generations that
    succeed. *)
Definition intro16 : value := VObj [ ("introLengthBars", VNum 16) ].
Definition intro8 : value := VObj [ ("introLengthBars", VNum 8) ].

Definition artifact (path : string) (seconds : Z) : EngineOutput :=
  {| artifactPath := path; durationSeconds := seconds;
     reported_bpm := Some 124%Z; reported_key := None;
     reported_format := Some "mp3"; reported_bitrate := None |}.

Definition four_generations : list event :=
  [ EvCreate upload_song;
    EvSubmit 1 intro16; EvEngineSuccess 1 (artifact "A1" 120);
    EvSubmit 1 intro8; EvEngineSuccess 1 (artifact "A2" 112);
    EvSubmit 1 intro8; EvEngineSuccess 1 (artifact "A3" 112);
    EvSubmit 1 intro8; EvEngineSuccess 1 (artifact "A4" 112) ].

Definition four_versions : Coordinator := run four_generations new_Coordinator.

(** A second upload, and a generation under way for the first. *)
Definition generating : Coordinator :=
  run [ EvCreate upload_song; EvCreate upload_song; EvSubmit 1 intro16 ]
      new_Coordinator.


(** The record of a fresh upload, and the same record once a generation was
    accepted for it. *)
Definition uploaded_song : obj :=
  (createAudioTrack (insert_obj upload_song) new_MemStorage).1.

Definition song_in_progress : obj := spread uploaded_song (submit_patch intro16).

(** ** client/src/components/TrackView.tsx: what the component shows

    Strings are sequences of bytes; the characters the component looks for
    ([.] and [/]) are single bytes that occur in no other character. *)

(** [type: "original" | "extended"] *)
Inductive view_type :=
| Original
| Extended.

(** The class [[^/.]]. *)
Definition plain (c : Ascii.ascii) : bool :=
  negb (Ascii.eqb c "/"%char) && negb (Ascii.eqb c "."%char).

Fixpoint all_plain (s : string) : bool :=
  match s with
  | EmptyString => true
  | String c rest => plain c && all_plain rest
  end.

(** [/\.[^/.]+$/] matches the whole of [s]: a dot, then one or more
    characters that are neither a dot nor a slash, up to the end. *)
Definition extension_here (s : string) : bool :=
  match s with
  | String c (String c' rest) =>
      Ascii.eqb c "."%char && all_plain (String c' rest)
  | _ => false
  end.

(** [s.match(/\.[^/.]+$/)?.[0]]: the match is sought from the left, at
    each position in turn. *)
Fixpoint extension_match (s : string) : option string :=
  if extension_here s then Some s
  else match s with
       | EmptyString => None
       | String _ rest => extension_match rest
       end.

(** [s.replace(/\.[^/.]+$/, "")]: the string without the match. *)
Fixpoint extension_removed (s : string) : string :=
  if extension_here s then EmptyString
  else match s with
       | EmptyString => EmptyString
       | String c rest => String c (extension_removed rest)
       end.

(** [displayTitle] of the single-version variants. *)
Definition displayTitle_v1 (originalFilename : string) (type : view_type)
  : string :=
  match type with
  | Original => originalFilename
  | Extended =>
      extension_removed originalFilename ++ " (Extended Mix)"
      ++ default "" (extension_match originalFilename)
  end.

(** [displayTitle] of the multi-version variant; [version] is the index of
    the version shown, printed in decimal. *)
Definition displayTitle (originalFilename : string) (type : view_type)
  (version : N) : string :=
  match type with
  | Original => originalFilename
  | Extended =>
      extension_removed originalFilename
      ++ " (Extended Mix v" ++ pretty (version + 1)%N ++ ")"
      ++ default "" (extension_match originalFilename)
  end.

(** [track.extendedPaths?.length || 1] *)
Definition extendedPaths_length_or_1 (o : obj) : Z :=
  match o !! "extendedPaths" with
  | Some (VArr (x :: l)) => Z.of_nat (length (x :: l))
  | _ => 1%Z
  end.

(** The version cards of the multi-version variant:
    [[...(track.extendedPaths || [])].reverse().map((path, idx) => ...)],
    each card with its [versionIndex], which labels the card and goes into
    its download and audio links. *)
Definition version_cards (track : obj) : list (Z * value) :=
  imap (fun idx path =>
          ((extendedPaths_length_or_1 track - Z.of_nat idx - 1)%Z, path))
       (reverse (extendedPaths track)).

(** [newVersion], the version the player loads once a regeneration has
    completed: [(updatedTrack.extendedPaths?.length || 1) - 1]. *)
Definition newVersion (updatedTrack : obj) : Z :=
  (extendedPaths_length_or_1 updatedTrack - 1)%Z.

(** ** client/src/components/TrackView.tsx: the regenerate button at work

    What the click handler and the polling callback do to the component:
    the [track] prop (an object, which the oldest variant writes to), the
    [isProcessing] state, whether the polling interval is set, and the toasts
    shown so far. *)

Inductive toast :=
| ToastSuccess
| ToastError.

Record view := mkView {
  view_track : obj;
  view_isProcessing : bool;
  view_polling : bool;
  view_toasts : list toast
}.

(** How the [POST .../process] request ends: a response that is [ok], a
    response that is not, or a rejected [fetch]. *)
Inductive post_outcome :=
| PostOk
| PostNotOk
| PostRejected.

(** How a [GET .../status] request ends: a body with its [status], or a
    rejected [fetch] or [json]. *)
Inductive poll_answer :=
| AnswerStatus (status : value)
| AnswerRejected.

(** [data.status === s] *)
Definition value_is (v : value) (s : string) : bool :=
  match v with
  | VStr x => String.eqb x s
  | _ => false
  end.

(** [onClick] of TrackView.tsx: the status of the prop is forced to
    "processing" before the request goes out, and the [catch] does not put it
    back. *)
Definition click_v1 (post : post_outcome) (v : view) : view :=
  let track' := <["status" := VStr "processing"]> (view_track v) in
  match post with
  | PostOk =>
      {| view_track := track'; view_isProcessing := true;
         view_polling := true; view_toasts := view_toasts v |}
  | _ =>
      {| view_track := track'; view_isProcessing := false;
         view_polling := view_polling v;
         view_toasts := view_toasts v ++ [ToastError] |}
  end.

(** [onClick] of the two later variants. *)
Definition click_v2 (post : post_outcome) (v : view) : view :=
  match post with
  | PostOk =>
      {| view_track := view_track v; view_isProcessing := true;
         view_polling := true; view_toasts := view_toasts v |}
  | _ =>
      {| view_track := view_track v; view_isProcessing := false;
         view_polling := view_polling v;
         view_toasts := view_toasts v ++ [ToastError] |}
  end.

(** The interval callback of TrackView.tsx: [checkStatus] returns true on
    "completed" and false on anything else, nothing is caught, and the states
    are reset only if the audio element is there. *)
Definition tick_v1 (audio : bool) (answer : poll_answer) (v : view) : view :=
  match answer with
  | AnswerStatus status =>
      if value_is status "completed" then
        {| view_track :=
             if audio then <["status" := VStr "completed"]> (view_track v)
             else view_track v;
           view_isProcessing := if audio then false else view_isProcessing v;
           view_polling := false;
           view_toasts := view_toasts v ++ [ToastSuccess] |}
      else v
  | AnswerRejected => v
  end.

(** The interval callback of the second variant: [checkStatus] returns true
    on "completed", false on "processing" and throws on anything else; the
    callback catches. *)
Definition tick_v2 (answer : poll_answer) (v : view) : view :=
  match answer with
  | AnswerStatus status =>
      if value_is status "completed" then
        {| view_track := view_track v; view_isProcessing := false;
           view_polling := false;
           view_toasts := view_toasts v ++ [ToastSuccess] |}
      else if value_is status "processing" then v
      else
        {| view_track := view_track v; view_isProcessing := false;
           view_polling := false;
           view_toasts := view_toasts v ++ [ToastError] |}
  | AnswerRejected =>
      {| view_track := view_track v; view_isProcessing := false;
         view_polling := false;
         view_toasts := view_toasts v ++ [ToastError] |}
  end.

(** The callbacks of one interval, each answered before the next tick: a
    tick fires only while the interval is set. *)
Fixpoint run_ticks {A : Type} (tick : A -> view -> view) (answers : list A)
  (v : view) : view :=
  match answers with
  | [] => v
  | a :: rest =>
      if view_polling v then run_ticks tick rest (tick a v) else v
  end.

Definition still_processing : poll_answer := AnswerStatus (VStr "processing").

(** An answer whose [status] is "completed". *)
Definition completed_answer (answer : poll_answer) : bool :=
  match answer with
  | AnswerStatus status => value_is status "completed"
  | AnswerRejected => false
  end.

(** The toast that ends the polling of the second variant. *)
Definition final_toast (answer : poll_answer) : toast :=
  match answer with
  | AnswerStatus status =>
      if value_is status "completed" then ToastSuccess else ToastError
  | AnswerRejected => ToastError
  end.

(** A view of a completed track, at rest. *)
Definition view_at_rest : view :=
  {| view_track :=
       spread uploaded_song (obj_literal ∅ [ ("status", VStr "completed") ]);
     view_isProcessing := false; view_polling := false; view_toasts := [] |}.

(** ** client/src/pages/Home.tsx: the selection kept in localStorage

    The second variant of the page keeps [currentTrackId] and [isProcessed]
    in [localStorage].  Strings are UTF-8.  A number is told apart exactly
    only when it is an integer smaller than 2^53 in size, where it is printed
    with all its decimal digits and read back exactly; the numbers of that
    size and above (which print rounded, or with an exponent from 10^21 on)
    are one value, [NumLarge]. *)

(** [number | null]: null, NaN, an integer [n] with [|n| < 2^53], or a
    number of size 2^53 or more. *)
Inductive number_or_null :=
| NumNull
| NumNaN
| Num (n : Z)
| NumLarge.

(** 2^53. *)
Definition unsafe_from : Z := 9007199254740992.

(** The values [Num n] stands for. *)
Definition printable (x : number_or_null) : bool :=
  match x with
  | Num n => (Z.abs n <? unsafe_from)%Z
  | NumLarge => false
  | _ => true
  end.

Record home := mkHome {
  currentTrackId : number_or_null;
  home_isProcessing : bool;
  isProcessed : bool
}.

(** A number in a condition: 0 and NaN count as false, and so does null. *)
Definition truthy (x : number_or_null) : bool :=
  match x with
  | Num n => negb (Z.eqb n 0)
  | NumLarge => true
  | _ => false
  end.

(** White space of one byte: tab, line feed, vertical tab, form feed,
    carriage return, space. *)
Definition ascii_space (c : Ascii.ascii) : bool :=
  Ascii.eqb c "009" || Ascii.eqb c "010" || Ascii.eqb c "011"
  || Ascii.eqb c "012" || Ascii.eqb c "013" || Ascii.eqb c " ".

(** White space of three bytes: U+1680, U+2000 to U+200A, U+2028, U+2029,
    U+202F, U+205F, U+3000 and U+FEFF. *)
Definition wide_space (c1 c2 c3 : Ascii.ascii) : bool :=
  (Ascii.eqb c1 "225" && Ascii.eqb c2 "154" && Ascii.eqb c3 "128")
  || (Ascii.eqb c1 "226" && Ascii.eqb c2 "128"
      && ((128 <=? nat_of_ascii c3)%nat && (nat_of_ascii c3 <=? 138)%nat
          || Ascii.eqb c3 "168" || Ascii.eqb c3 "169" || Ascii.eqb c3 "175"))
  || (Ascii.eqb c1 "226" && Ascii.eqb c2 "129" && Ascii.eqb c3 "159")
  || (Ascii.eqb c1 "227" && Ascii.eqb c2 "128" && Ascii.eqb c3 "128")
  || (Ascii.eqb c1 "239" && Ascii.eqb c2 "187" && Ascii.eqb c3 "191").

(** The string without its leading white space and line terminators, the
    first step of [parseInt]. *)
Fixpoint trim_start (s : string) : string :=
  match s with
  | EmptyString => EmptyString
  | String c1 rest =>
      if ascii_space c1 then trim_start rest
      else if Ascii.eqb c1 "194" then
        match rest with
        | String c2 rest2 =>
            if Ascii.eqb c2 "160" then trim_start rest2 else s
        | EmptyString => s
        end
      else if Ascii.eqb c1 "225" || Ascii.eqb c1 "226" || Ascii.eqb c1 "227"
              || Ascii.eqb c1 "239" then
        match rest with
        | String c2 (String c3 rest3) =>
            if wide_space c1 c2 c3 then trim_start rest3 else s
        | _ => s
        end
      else s
  end.

Definition digit_of (c : Ascii.ascii) : option N :=
  if Ascii.eqb c "0" then Some 0%N else if Ascii.eqb c "1" then Some 1%N
  else if Ascii.eqb c "2" then Some 2%N else if Ascii.eqb c "3" then Some 3%N
  else if Ascii.eqb c "4" then Some 4%N else if Ascii.eqb c "5" then Some 5%N
  else if Ascii.eqb c "6" then Some 6%N else if Ascii.eqb c "7" then Some 7%N
  else if Ascii.eqb c "8" then Some 8%N else if Ascii.eqb c "9" then Some 9%N
  else None.

(** The value of the digits [s] begins with, read after the digits that
    gave [acc]. *)
Fixpoint digits_from (acc : N) (s : string) : N :=
  match s with
  | EmptyString => acc
  | String c rest =>
      match digit_of c with
      | Some d => digits_from (10 * acc + d) rest
      | None => acc
      end
  end.

(** The digits a string begins with, as a number; NaN if it begins with
    none. *)
Definition parse_digits (s : string) : option N :=
  match s with
  | EmptyString => None
  | String c _ =>
      match digit_of c with
      | Some _ => Some (digits_from 0 s)
      | None => None
      end
  end.

(** The number for a sign and the value of the digits read: the value
    itself below 2^53, where every integer is a number; the nearest number, of
    size 2^53 or more, from there on. *)
Definition number_read (negative : bool) (digits : option N) : number_or_null :=
  match digits with
  | None => NumNaN
  | Some n =>
      if (Z.of_N n <? unsafe_from)%Z
      then Num (if negative then - Z.of_N n else Z.of_N n)
      else NumLarge
  end.

(** [parseInt(s, 10)]: leading white space is skipped, a sign is read, then
    the digits up to the first character that is not one. *)
Definition parseInt (s : string) : number_or_null :=
  match trim_start s with
  | String "-" rest => number_read true (parse_digits rest)
  | String "+" rest => number_read false (parse_digits rest)
  | unsigned => number_read false (parse_digits unsigned)
  end.

(** The initial state of the page, read from [localStorage]:
    [saved ? parseInt(saved, 10) : null] and
    [localStorage.getItem("isProcessed") === "true"]. *)
Definition initial_home (ls : gmap string string) : home :=
  {| currentTrackId :=
       match ls !! "currentTrackId" with
       | Some saved => if String.eqb saved "" then NumNull else parseInt saved
       | None => NumNull
       end;
     home_isProcessing := false;
     isProcessed :=
       match ls !! "isProcessed" with
       | Some saved => String.eqb saved "true"
       | None => false
       end |}.

(** The two effects that write the state back:
    [if (currentTrackId) setItem("currentTrackId", currentTrackId.toString())
     else removeItem("currentTrackId")] and
    [setItem("isProcessed", isProcessed.toString())].  What [toString] gives
    for a number of size 2^53 or more is not modelled: there is no result for
    such a state. *)
Definition persist (h : home) (ls : gmap string string)
  : option (gmap string string) :=
  let isProcessed_saved := if isProcessed h then "true" else "false" in
  match currentTrackId h with
  | Num n =>
      if printable (Num n) then
        Some (<["isProcessed" := isProcessed_saved]>
                (if truthy (Num n) then <["currentTrackId" := pretty n]> ls
                 else delete "currentTrackId" ls))
      else None
  | NumLarge => None
  | _ =>
      Some (<["isProcessed" := isProcessed_saved]> (delete "currentTrackId" ls))
  end.

(** A page with track 42 selected and processed, and a storage in which
    something else left a long number. *)
Definition home_42 : home :=
  {| currentTrackId := Num 42; home_isProcessing := true; isProcessed := true |}.

Definition stale_storage : gmap string string :=
  <["currentTrackId" := "1000000000000000000000"]> ∅.

(** ** More of the store *)

(** The keys of a [Map] in iteration order, and its values in that order
    (see [tracks_values]). *)
Definition keys_ascending (m : gmap Z obj) : list Z :=
  merge_sort Z.le (elements (dom m)).

Definition values_ascending (m : gmap Z obj) : list obj :=
  omap (fun k => m !! k) (keys_ascending m).

(** The store after a sequence of calls. *)
Fixpoint run_calls (cs : list store_call) (s : MemStorage) : MemStorage :=
  match cs with
  | [] => s
  | c :: cs' => run_calls cs' (perform c s).2
  end.

Definition is_create (c : store_call) : bool :=
  match c with
  | CallCreate _ => true
  | _ => false
  end.

(** A call whose patch, if it has one, has no [id] property. *)
Definition leaves_id (c : store_call) : bool :=
  match c with
  | CallUpdate _ update => bool_decide (update !! "id" = None)
  | _ => true
  end.

(** Every record carries the id it is stored under. *)
Definition ids_consistent (s : MemStorage) : Prop :=
  forall k t, tracks s !! k = Some t -> track_id t = Some k.

(** The ids in use are exactly those the counter has handed out. *)
Definition ids_exact (s : MemStorage) : Prop :=
  forall k, is_Some (tracks s !! k) <-> (1 <= k < trackIdCounter s)%Z.

(** The properties [createAudioTrack] writes itself. *)
Definition createAudioTrack_fields : list string :=
  [ "id"; "extendedPath"; "duration"; "extendedDuration"; "bpm"; "key";
    "format"; "bitrate"; "status"; "settings" ].

(** ** server/storage.ts: class MemStorage (the user half)

    [users] and [userIdCounter], which no track method reads or writes. *)

Record UserStorage := mkUserStorage {
  users : gmap Z obj;
  userIdCounter : Z
}.

(** [constructor()] *)
Definition new_UserStorage : UserStorage :=
  {| users := ∅; userIdCounter := 1 |}.

(** [getUser(id)] *)
Definition getUser (id : Z) (s : UserStorage) : option obj * UserStorage :=
  (users s !! id, s).

(** [user.username === username] *)
Definition username_is (o : obj) (username : string) : bool :=
  match o !! "username" with
  | Some (VStr u) => String.eqb u username
  | _ => false
  end.

(** [getUserByUsername(username)]: [find] returns the first match in
    iteration order, or undefined. *)
Definition getUserByUsername (username : string) (s : UserStorage)
  : option obj * UserStorage :=
  (List.find (fun user => username_is user username)
     (values_ascending (users s)), s).

(** [createUser(insertUser)] *)
Definition createUser (insertUser : obj) (s : UserStorage) : obj * UserStorage :=
  let id := userIdCounter s in
  let user := obj_literal insertUser [ ("id", VNum id) ] in
  (user,
   {| users := <[id := user]> (users s);
      userIdCounter := (userIdCounter s + 1)%Z |}).

(** Every stored user id was handed out by the counter. *)
Definition users_wf (s : UserStorage) : Prop :=
  forall k, is_Some (users s !! k) -> (k < userIdCounter s)%Z.

(** Two registrations under the same name. *)
Definition alice : obj :=
  obj_literal ∅ [ ("username", VStr "alice"); ("password", VStr "first") ].

Definition alice_again : obj :=
  obj_literal ∅ [ ("username", VStr "alice"); ("password", VStr "second") ].

Definition one_user : UserStorage := (createUser alice new_UserStorage).2.

(** Calls on the track store, one of them an update. *)
Definition some_calls : list store_call :=
  [ CallCreate (insert_obj upload_song);
    CallUpdate 1 (obj_literal ∅ [ ("status", VStr "processing") ]);
    CallCreate upload_with_extras;
    CallGet 2;
    CallList 7 ].

(** * Properties *)

(** ** Objects *)

Lemma obj_literal_lookup (props : list (string * value)) (base : obj) (k : string) :
  obj_literal base props !! k = written props k (base !! k).
Proof.
  unfold obj_literal.
  revert base. induction props as [|[k' v] rest IH]; intros base; simpl.
  - reflexivity.
  - rewrite IH. f_equal.
    destruct (String.eqb_spec k' k) as [->|Hne].
    + apply lookup_insert_eq.
    + apply lookup_insert_ne. exact Hne.
Qed.

Lemma spread_lookup_absent (earlier later : obj) (k : string) :
  later !! k = None -> spread earlier later !! k = earlier !! k.
Proof. intros H. unfold spread. apply lookup_union_r. exact H. Qed.

Lemma spread_lookup_present (earlier later : obj) (k : string) (v : value) :
  later !! k = Some v -> spread earlier later !! k = Some v.
Proof. intros H. unfold spread. apply lookup_union_Some_l. exact H. Qed.

(** ** The store *)

Lemma createAudioTrack_lookup (track : obj) (s : MemStorage) (k : string) :
  (createAudioTrack track s).1 !! k =
  written
    [ ("id", VNum (trackIdCounter s)); ("extendedPath", VNull);
      ("duration", VNull); ("extendedDuration", VNull); ("bpm", VNull);
      ("key", VNull); ("format", VNull); ("bitrate", VNull);
      ("status", VStr "uploaded"); ("settings", VNull) ] k (track !! k).
Proof. exact (obj_literal_lookup _ track k). Qed.

Lemma createAudioTrack_id (track : obj) (s : MemStorage) :
  track_id (createAudioTrack track s).1 = Some (trackIdCounter s).
Proof. unfold track_id. rewrite createAudioTrack_lookup. reflexivity. Qed.

Lemma createAudioTrack_counter (track : obj) (s : MemStorage) :
  trackIdCounter (createAudioTrack track s).2 = (trackIdCounter s + 1)%Z.
Proof. reflexivity. Qed.

Lemma createAudioTrack_stored (track : obj) (s : MemStorage) :
  tracks (createAudioTrack track s).2 !! trackIdCounter s
  = Some (createAudioTrack track s).1.
Proof. simpl. apply lookup_insert_eq. Qed.

Lemma createAudioTrack_other (track : obj) (s : MemStorage) (k : Z) :
  k <> trackIdCounter s ->
  tracks (createAudioTrack track s).2 !! k = tracks s !! k.
Proof. intros H. simpl. apply lookup_insert_ne. congruence. Qed.

Lemma updateAudioTrack_counter (id : Z) (update : obj) (s : MemStorage) :
  trackIdCounter (updateAudioTrack id update s).2 = trackIdCounter s.
Proof. unfold updateAudioTrack. destruct (tracks s !! id); reflexivity. Qed.

Lemma updateAudioTrack_present (id : Z) (update : obj) (s : MemStorage) (t : obj) :
  tracks s !! id = Some t ->
  updateAudioTrack id update s =
  (Some (spread t update),
   {| tracks := <[id := spread t update]> (tracks s);
      trackIdCounter := trackIdCounter s |}).
Proof. intros H. unfold updateAudioTrack. rewrite H. reflexivity. Qed.

Lemma updateAudioTrack_absent (id : Z) (update : obj) (s : MemStorage) :
  tracks s !! id = None -> updateAudioTrack id update s = (None, s).
Proof. intros H. unfold updateAudioTrack. rewrite H. reflexivity. Qed.

Lemma updateAudioTrack_other (id k : Z) (update : obj) (s : MemStorage) :
  k <> id ->
  tracks (updateAudioTrack id update s).2 !! k = tracks s !! k.
Proof.
  intros H. unfold updateAudioTrack.
  destruct (tracks s !! id); simpl; [|reflexivity].
  apply lookup_insert_ne. congruence.
Qed.

Lemma updateAudioTrack_keeps (id k : Z) (update : obj) (s : MemStorage) :
  is_Some (tracks s !! k) ->
  is_Some (tracks (updateAudioTrack id update s).2 !! k).
Proof.
  intros H. destruct (decide (k = id)) as [->|Hne].
  - destruct H as [t Ht]. rewrite (updateAudioTrack_present _ _ _ _ Ht). simpl.
    rewrite lookup_insert_eq. eauto.
  - rewrite updateAudioTrack_other; assumption.
Qed.

Lemma new_MemStorage_wf : store_wf new_MemStorage.
Proof. intros k [t Ht]. simpl in Ht. rewrite lookup_empty in Ht. discriminate. Qed.

Lemma createAudioTrack_wf (track : obj) (s : MemStorage) :
  store_wf s -> store_wf (createAudioTrack track s).2.
Proof.
  intros Hwf k Hk. rewrite createAudioTrack_counter.
  destruct (decide (k = trackIdCounter s)) as [->|Hne]; [lia|].
  rewrite createAudioTrack_other in Hk by assumption.
  specialize (Hwf k Hk). lia.
Qed.

Lemma updateAudioTrack_wf (id : Z) (update : obj) (s : MemStorage) :
  store_wf s -> store_wf (updateAudioTrack id update s).2.
Proof.
  intros Hwf k Hk. rewrite updateAudioTrack_counter. apply Hwf.
  destruct (decide (k = id)) as [->|Hne].
  - unfold updateAudioTrack in Hk.
    destruct (tracks s !! id) eqn:E; [eauto|].
    simpl in Hk. rewrite E in Hk. exact Hk.
  - rewrite updateAudioTrack_other in Hk; assumption.
Qed.

Lemma perform_wf (c : store_call) (s : MemStorage) :
  store_wf s -> store_wf (perform c s).2.
Proof.
  intros Hwf. destruct c as [track|id update|id|uid]; simpl.
  - apply createAudioTrack_wf, Hwf.
  - pose proof (updateAudioTrack_wf id update s Hwf) as H.
    destruct (updateAudioTrack id update s). exact H.
  - exact Hwf.
  - exact Hwf.
Qed.

Lemma perform_counter_mono (c : store_call) (s : MemStorage) :
  (trackIdCounter s <= trackIdCounter (perform c s).2)%Z.
Proof.
  destruct c as [track|id update|id|uid]; simpl; try lia.
  pose proof (updateAudioTrack_counter id update s) as H.
  destruct (updateAudioTrack id update s). simpl in *. lia.
Qed.

Lemma created_ids_create (track : obj) (cs : list store_call) (s : MemStorage) :
  created_ids (CallCreate track :: cs) s
  = trackIdCounter s :: created_ids cs (createAudioTrack track s).2.
Proof.
  change (created_ids (CallCreate track :: cs) s)
    with (option_list (track_id (createAudioTrack track s).1)
          ++ created_ids cs (createAudioTrack track s).2)%list.
  rewrite createAudioTrack_id. reflexivity.
Qed.

Lemma created_ids_other (c : store_call) (cs : list store_call) (s : MemStorage) :
  (forall track, c <> CallCreate track) ->
  created_ids (c :: cs) s = created_ids cs (perform c s).2.
Proof.
  intros Hc. destruct c as [track|id update|id|uid]; simpl.
  - destruct (Hc track). reflexivity.
  - destruct (updateAudioTrack id update s). reflexivity.
  - reflexivity.
  - reflexivity.
Qed.

Lemma created_ids_bound (cs : list store_call) (s : MemStorage) (k : Z) :
  k ∈ created_ids cs s -> (trackIdCounter s <= k)%Z.
Proof.
  revert s. induction cs as [|c cs' IH]; intros s.
  - simpl. intros H. inversion H.
  - destruct c as [track|id update|id|uid].
    + rewrite created_ids_create. intros H.
      apply elem_of_cons in H as [->|H]; [lia|].
      apply IH in H. rewrite createAudioTrack_counter in H. lia.
    + rewrite created_ids_other by discriminate. intros H. apply IH in H.
      pose proof (perform_counter_mono (CallUpdate id update) s). lia.
    + rewrite created_ids_other by discriminate. intros H. apply IH in H.
      pose proof (perform_counter_mono (CallGet id) s). lia.
    + rewrite created_ids_other by discriminate. intros H. apply IH in H.
      pose proof (perform_counter_mono (CallList uid) s). lia.
Qed.

(** [createAudioTrack] writes no [extendedPaths]: the list of the record is
    the one of the object it was given. *)
Lemma createAudioTrack_keeps_extendedPaths (track : obj) (s : MemStorage) :
  extendedPaths (createAudioTrack track s).1 = extendedPaths track.
Proof.
  unfold extendedPaths. rewrite createAudioTrack_lookup. reflexivity.
Qed.

(** An [InsertAudioTrack] brings no versions. *)
Lemma insert_obj_no_versions (i : InsertAudioTrack) :
  extendedPaths (insert_obj i) = [].
Proof.
  unfold extendedPaths, insert_obj. rewrite obj_literal_lookup. reflexivity.
Qed.

(** C5.  For every object given to [createAudioTrack], the record
    returned, which is the one stored under the new id, has status "uploaded",
    a null [extendedPath] and null [bpm], [key], [format] and [bitrate],
    whatever the caller supplied for them.  [createAudioTrack] does not write
    the version list: the [extendedPaths] of the record is the one of the
    input, so it is empty when the input brings none, as for every
    [InsertAudioTrack], and it is the caller's list otherwise. *)
Theorem createAudioTrack_initial_record (s : MemStorage) :
  (forall track : obj,
     let t := (createAudioTrack track s).1 in
     tracks (createAudioTrack track s).2 !! trackIdCounter s = Some t /\
     t !! "status" = Some (VStr "uploaded") /\
     t !! "extendedPath" = Some VNull /\
     t !! "bpm" = Some VNull /\
     t !! "key" = Some VNull /\
     t !! "format" = Some VNull /\
     t !! "bitrate" = Some VNull /\
     extendedPaths t = extendedPaths track) /\
  (forall i : InsertAudioTrack,
     let t := (createAudioTrack (insert_obj i) s).1 in
     status_is t "uploaded" = true /\
     extendedPaths t = []).
Proof.
  split.
  - intros track t. subst t.
    split; [apply createAudioTrack_stored|].
    rewrite createAudioTrack_keeps_extendedPaths.
    rewrite !createAudioTrack_lookup. simpl. repeat split; reflexivity.
  - intros i t. subst t. unfold status_is.
    rewrite createAudioTrack_keeps_extendedPaths, insert_obj_no_versions.
    rewrite createAudioTrack_lookup. simpl. split; reflexivity.
Qed.

(** A version list supplied by the caller is in the record created. *)
Lemma createAudioTrack_supplied_versions_stay :
  extendedPaths (createAudioTrack upload_with_versions new_MemStorage).1
  = [VStr "old.mp3"] /\
  extendedPaths (createAudioTrack upload_with_versions new_MemStorage).1 <> [].
Proof. split; [reflexivity|discriminate]. Qed.

(** The overwriting on an input whose caller supplies a tempo, a status and a
    format of its own. *)
Example createAudioTrack_overwrites :
  let t := (createAudioTrack upload_with_extras new_MemStorage).1 in
  upload_with_extras !! "bpm" = Some (VNum 128) /\
  t !! "bpm" = Some VNull /\
  t !! "status" = Some (VStr "uploaded") /\
  t !! "format" = Some VNull /\
  t !! "originalFilename" = Some (VStr "song.mp3") /\
  t !! "id" = Some (VNum 1).
Proof. vm_compute. repeat split; reflexivity. Qed.

Lemma created_ids_counter (cs : list store_call) (s : MemStorage) :
  created_ids cs s
  = seqZ (trackIdCounter s) (Z.of_nat (length (List.filter is_create cs))) /\
  trackIdCounter (run_calls cs s)
  = (trackIdCounter s + Z.of_nat (length (List.filter is_create cs)))%Z.
Proof.
  revert s. induction cs as [|c cs' IH]; intros s.
  - simpl. split; [reflexivity|lia].
  - destruct c as [track|id update|id|uid].
    + rewrite created_ids_create.
      change (run_calls (CallCreate track :: cs') s)
        with (run_calls cs' (createAudioTrack track s).2).
      destruct (IH (createAudioTrack track s).2) as [-> ->].
      rewrite createAudioTrack_counter.
      change (List.filter is_create (CallCreate track :: cs'))
        with (CallCreate track :: List.filter is_create cs').
      cbn [length]. split; [|lia].
      rewrite (seqZ_cons (trackIdCounter s)) by lia.
      f_equal. f_equal; lia.
    + rewrite created_ids_other by discriminate.
      change (run_calls (CallUpdate id update :: cs') s)
        with (run_calls cs' (perform (CallUpdate id update) s).2).
      destruct (IH (perform (CallUpdate id update) s).2) as [-> ->].
      assert (Hc : trackIdCounter (perform (CallUpdate id update) s).2
                   = trackIdCounter s).
      { simpl. pose proof (updateAudioTrack_counter id update s) as H.
        destruct (updateAudioTrack id update s). exact H. }
      rewrite Hc. split; reflexivity.
    + rewrite created_ids_other by discriminate.
      exact (IH s).
    + rewrite created_ids_other by discriminate.
      exact (IH s).
Qed.

(** C6.  In every sequence of calls on a store, each [createAudioTrack]
    assigns an id: the run yields one id per creation, and these ids are
    pairwise distinct.  A creation after the run returns a record that carries
    the counter's value as its id and is stored under it, and that id is none
    of the ids assigned during the run. *)
Theorem created_ids_distinct (cs : list store_call) (s : MemStorage) :
  length (created_ids cs s) = length (List.filter is_create cs) /\
  NoDup (created_ids cs s) /\
  forall track,
    let s' := run_calls cs s in
    track_id (createAudioTrack track s').1 = Some (trackIdCounter s') /\
    tracks (createAudioTrack track s').2 !! trackIdCounter s'
    = Some (createAudioTrack track s').1 /\
    (trackIdCounter s' ∉ created_ids cs s) /\
    created_ids (cs ++ [CallCreate track]) s
    = (created_ids cs s ++ [trackIdCounter s'])%list.
Proof.
  destruct (created_ids_counter cs s) as [Hids Hcounter].
  split; [|split].
  - rewrite Hids, length_seqZ. lia.
  - rewrite Hids. apply NoDup_seqZ.
  - intros track s'. subst s'.
    split; [apply createAudioTrack_id|].
    split; [apply createAudioTrack_stored|].
    split.
    + rewrite Hids, Hcounter, elem_of_seqZ. lia.
    + destruct (created_ids_counter (cs ++ [CallCreate track]) s) as [-> _].
      rewrite Hids, Hcounter, List.filter_app, length_app. cbn [List.filter is_create length].
      rewrite Nat2Z.inj_add. change (Z.of_nat 1) with 1%Z.
      rewrite seqZ_app by lia.
      f_equal.
Qed.

(** A created id is also new to the store: on a store whose ids all came
    from the counter, no record was there under it. *)
Lemma trackIdCounter_fresh (s : MemStorage) :
  store_wf s -> tracks s !! trackIdCounter s = None.
Proof.
  intros Hwf. destruct (tracks s !! trackIdCounter s) eqn:E; [|reflexivity].
  assert (trackIdCounter s < trackIdCounter s)%Z by (apply Hwf; eauto). lia.
Qed.

(** C7.  [updateAudioTrack] on a present id writes the merge of the record
    and the patch: every property the patch lacks reads as before, every
    property it has reads as in the patch; every other record of the store
    and the counter are as before. *)
Theorem updateAudioTrack_frame (id : Z) (update : obj) (s : MemStorage) (track : obj) :
  tracks s !! id = Some track ->
  exists updated,
    (updateAudioTrack id update s).1 = Some updated /\
    tracks (updateAudioTrack id update s).2 !! id = Some updated /\
    (forall f, update !! f = None -> updated !! f = track !! f) /\
    (forall f v, update !! f = Some v -> updated !! f = Some v) /\
    (forall k, k <> id ->
       tracks (updateAudioTrack id update s).2 !! k = tracks s !! k) /\
    trackIdCounter (updateAudioTrack id update s).2 = trackIdCounter s.
Proof.
  intros Ht. exists (spread track update).
  rewrite (updateAudioTrack_present _ _ _ _ Ht). simpl.
  split; [reflexivity|].
  split; [apply lookup_insert_eq|].
  split; [intros f Hf; apply spread_lookup_absent, Hf|].
  split; [intros f v Hf; apply spread_lookup_present, Hf|].
  split; [|reflexivity].
  intros k Hk. apply lookup_insert_ne. congruence.
Qed.

Lemma updateAudioTrack_frame_witness :
  exists updated,
    (updateAudioTrack 1 analysed_patch two_tracks).1 = Some updated /\
    tracks (updateAudioTrack 1 analysed_patch two_tracks).2 !! 1%Z
    = Some updated /\
    (forall f, analysed_patch !! f = None ->
       updated !! f = spread (createAudioTrack (insert_obj upload_song)
                                new_MemStorage).1
                        (obj_literal ∅ [ ("bpm", VNum 124); ("key", VStr "Am") ])
                      !! f) /\
    (forall f v, analysed_patch !! f = Some v -> updated !! f = Some v) /\
    (forall k, k <> 1%Z ->
       tracks (updateAudioTrack 1 analysed_patch two_tracks).2 !! k
       = tracks two_tracks !! k) /\
    trackIdCounter (updateAudioTrack 1 analysed_patch two_tracks).2
    = trackIdCounter two_tracks.
Proof.
  apply (updateAudioTrack_frame 1 analysed_patch two_tracks).
  reflexivity.
Defined.

(** C8.  For an id the store does not hold, [getAudioTrack] and
    [updateAudioTrack] both answer undefined, and the store after the failed
    update is the store before it. *)
Theorem unknown_id_not_found (id : Z) (s : MemStorage) :
  tracks s !! id = None ->
  getAudioTrack id s = (None, s) /\
  forall update, updateAudioTrack id update s = (None, s).
Proof.
  intros Hn. split.
  - unfold getAudioTrack. rewrite Hn. reflexivity.
  - intros update. apply updateAudioTrack_absent, Hn.
Qed.

Lemma unknown_id_not_found_witness :
  tracks two_tracks !! 3%Z = None /\
  getAudioTrack 3 two_tracks = (None, two_tracks) /\
  forall update, updateAudioTrack 3 update two_tracks = (None, two_tracks).
Proof.
  split; [reflexivity|].
  apply (unknown_id_not_found 3 two_tracks). reflexivity.
Defined.

(** C9.  Polling is a read: [n] status checks in a row return [n] times the
    answer of the first and leave the store as it was, and so do [n]
    [getAudioTrack] calls, on which the check rests. *)
Theorem status_check_idempotent (n : nat) (id : Z) (s : MemStorage) :
  poll n id s = (replicate n (status_check id s).1, s) /\
  read n id s = (replicate n (getAudioTrack id s).1, s).
Proof.
  split.
  - induction n as [|n IH]; simpl; [reflexivity|].
    rewrite IH. reflexivity.
  - induction n as [|n IH]; simpl; [reflexivity|].
    rewrite IH. reflexivity.
Qed.

(** C10.  When [updateAudioTrack] returns a record, it is the merge of the
    stored record and the patch, and [getAudioTrack] on the resulting store
    returns that same record. *)
Theorem read_after_write (id : Z) (update : obj) (s s' : MemStorage) (t : obj) :
  updateAudioTrack id update s = (Some t, s') ->
  getAudioTrack id s' = (Some t, s') /\
  exists track, tracks s !! id = Some track /\ t = spread track update.
Proof.
  unfold updateAudioTrack, getAudioTrack.
  destruct (tracks s !! id) as [track|] eqn:E; intros H; [|discriminate].
  injection H as <- <-. simpl. rewrite lookup_insert_eq.
  split; [reflexivity|]. exists track. split; reflexivity.
Qed.

Lemma read_after_write_witness :
  let r := updateAudioTrack 1 analysed_patch two_tracks in
  r = (Some (default ∅ r.1), r.2) /\
  getAudioTrack 1 r.2 = (Some (default ∅ r.1), r.2) /\
  exists track,
    tracks two_tracks !! 1%Z = Some track /\
    default ∅ r.1 = spread track analysed_patch.
Proof.
  split; [reflexivity|].
  apply (read_after_write 1 analysed_patch two_tracks). reflexivity.
Defined.

(** ** The coordinator *)

Lemma extendedPaths_length_eq (t : obj) :
  extendedPaths_length t = Z.of_nat (length (extendedPaths t)).
Proof.
  unfold extendedPaths_length, extendedPaths.
  destruct (t !! "extendedPaths") as [[]|]; reflexivity.
Qed.

Lemma extendedPaths_length_ext (t t' : obj) :
  t' !! "extendedPaths" = t !! "extendedPaths" ->
  extendedPaths_length t' = extendedPaths_length t.
Proof. intros H. unfold extendedPaths_length. rewrite H. reflexivity. Qed.

Lemma submit_patch_versions (t : obj) (settings : value) :
  spread t (submit_patch settings) !! "extendedPaths" = t !! "extendedPaths".
Proof.
  apply spread_lookup_absent. unfold submit_patch.
  rewrite obj_literal_lookup. reflexivity.
Qed.


Lemma status_patch_versions (t : obj) (st : string) :
  spread t (status_patch st) !! "extendedPaths" = t !! "extendedPaths".
Proof.
  apply spread_lookup_absent. unfold status_patch.
  rewrite obj_literal_lookup. reflexivity.
Qed.

Lemma status_patch_status (t : obj) (st : string) :
  spread t (status_patch st) !! "status" = Some (VStr st).
Proof.
  apply spread_lookup_present. unfold status_patch.
  rewrite obj_literal_lookup. reflexivity.
Qed.

Lemma completed_patch_versions (t : obj) (out : EngineOutput) :
  spread t (completed_patch out) !! "extendedPaths" = t !! "extendedPaths".
Proof.
  apply spread_lookup_absent. unfold completed_patch.
  rewrite spread_lookup_absent.
  - unfold metadata_patch. rewrite obj_literal_lookup.
    destruct out as [p d [b|] [k|] [f|] [r|]]; reflexivity.
  - unfold status_patch. rewrite obj_literal_lookup. reflexivity.
Qed.

Lemma completed_patch_status (t : obj) (out : EngineOutput) :
  spread t (completed_patch out) !! "status" = Some (VStr "completed").
Proof.
  apply spread_lookup_present, spread_lookup_present.
  unfold status_patch. rewrite obj_literal_lookup. reflexivity.
Qed.

Lemma append_patch_versions (t : obj) (path : string) (duration : Z) :
  spread t (append_patch t path duration) !! "extendedPaths"
  = Some (VArr (extendedPaths t ++ [VStr path])).
Proof.
  apply spread_lookup_present. unfold append_patch.
  rewrite obj_literal_lookup. reflexivity.
Qed.

Lemma append_patch_status (t : obj) (path : string) (duration : Z) :
  spread t (append_patch t path duration) !! "status" = t !! "status".
Proof.
  apply spread_lookup_absent. unfold append_patch.
  rewrite obj_literal_lookup. reflexivity.
Qed.

Lemma versions_bounded_create (track : obj) (s : MemStorage) :
  versions_bounded s ->
  extendedPaths track = [] ->
  versions_bounded (createAudioTrack track s).2.
Proof.
  intros Hb Hv k t' Hk.
  destruct (decide (k = trackIdCounter s)) as [->|Hne].
  - rewrite createAudioTrack_stored in Hk.
    replace t' with (createAudioTrack track s).1 by congruence.
    unfold record_bounded, status_is, MAX_VERSIONS.
    rewrite extendedPaths_length_eq, createAudioTrack_keeps_extendedPaths, Hv.
    rewrite createAudioTrack_lookup.
    simpl. split; [lia|discriminate].
  - rewrite createAudioTrack_other in Hk by assumption. exact (Hb k t' Hk).
Qed.

Lemma versions_bounded_insert (id : Z) (t' : obj) (s s' : MemStorage) :
  versions_bounded s ->
  record_bounded t' ->
  tracks s' = <[id := t']> (tracks s) ->
  versions_bounded s'.
Proof.
  intros Hb Hnew Heq k t Hk. rewrite Heq in Hk.
  destruct (decide (k = id)) as [->|Hne].
  - rewrite lookup_insert_eq in Hk. injection Hk as <-. exact Hnew.
  - rewrite lookup_insert_ne in Hk by congruence. exact (Hb k t Hk).
Qed.

Lemma updateAudioTrack_twice (id : Z) (p1 p2 : obj) (s : MemStorage) (t : obj) :
  tracks s !! id = Some t ->
  tracks (updateAudioTrack id p2 (updateAudioTrack id p1 s).2).2
  = <[id := spread (spread t p1) p2]> (tracks s).
Proof.
  intros Ht. rewrite (updateAudioTrack_present _ _ _ _ Ht). simpl.
  unfold updateAudioTrack. simpl. rewrite lookup_insert_eq. simpl.
  apply insert_insert_eq.
Qed.

(** *** What each operation of the coordinator does *)

Lemma Submit_unknown (id : Z) (settings : value) (c : Coordinator) :
  tracks (storage c) !! id = None ->
  Submit id settings c = (Err NotFound, c).
Proof. intros H. unfold Submit, getAudioTrack. rewrite H. reflexivity. Qed.

Lemma Submit_processing (id : Z) (settings : value) (c : Coordinator) (t : obj) :
  tracks (storage c) !! id = Some t ->
  status_is t "processing" = true ->
  Submit id settings c = (Err AlreadyProcessing, c).
Proof.
  intros H Hs. unfold Submit, getAudioTrack. rewrite H, Hs. reflexivity.
Qed.

Lemma Submit_full (id : Z) (settings : value) (c : Coordinator) (t : obj) :
  tracks (storage c) !! id = Some t ->
  status_is t "processing" = false ->
  (MAX_VERSIONS <= extendedPaths_length t)%Z ->
  Submit id settings c = (Err CapacityExceeded, c).
Proof.
  intros H Hs Hl. unfold Submit, getAudioTrack. rewrite H, Hs.
  apply Z.leb_le in Hl. rewrite Hl. reflexivity.
Qed.

Lemma Submit_accepted (id : Z) (settings : value) (c : Coordinator) (t : obj) :
  tracks (storage c) !! id = Some t ->
  status_is t "processing" = false ->
  (extendedPaths_length t < MAX_VERSIONS)%Z ->
  Submit id settings c =
  (Ok tt,
   {| storage := (updateAudioTrack id (submit_patch settings) (storage c)).2;
      engine_calls := engine_calls c ++ [(id, settings)] |}).
Proof.
  intros H Hs Hl. unfold Submit, getAudioTrack. rewrite H, Hs.
  apply Z.leb_gt in Hl. rewrite Hl.
  destruct (updateAudioTrack id (submit_patch settings) (storage c)).
  reflexivity.
Qed.

Lemma engine_success_idle (id : Z) (out : EngineOutput) (c : Coordinator) :
  (forall t, tracks (storage c) !! id = Some t ->
             status_is t "processing" = false) ->
  engine_success id out c = c.
Proof.
  intros H. unfold engine_success, getAudioTrack.
  destruct (tracks (storage c) !! id) as [t|] eqn:E; [|reflexivity].
  rewrite (H t eq_refl). reflexivity.
Qed.

Lemma engine_success_commit (id : Z) (out : EngineOutput) (c : Coordinator) (t : obj) :
  tracks (storage c) !! id = Some t ->
  status_is t "processing" = true ->
  (extendedPaths_length t < MAX_VERSIONS)%Z ->
  engine_success id out c =
  {| storage :=
       (updateAudioTrack id (completed_patch out)
          (updateAudioTrack id
             (append_patch t (artifactPath out) (durationSeconds out))
             (storage c)).2).2;
     engine_calls := engine_calls c |}.
Proof.
  intros H Hs Hl. unfold engine_success, Append, getAudioTrack.
  rewrite H, Hs. apply Z.leb_gt in Hl. rewrite Hl.
  destruct (updateAudioTrack id _ (storage c)). reflexivity.
Qed.

Lemma engine_success_refused (id : Z) (out : EngineOutput) (c : Coordinator) (t : obj) :
  tracks (storage c) !! id = Some t ->
  status_is t "processing" = true ->
  (MAX_VERSIONS <= extendedPaths_length t)%Z ->
  engine_success id out c =
  {| storage := (updateAudioTrack id (status_patch "failed") (storage c)).2;
     engine_calls := engine_calls c |}.
Proof.
  intros H Hs Hl. unfold engine_success, Append, getAudioTrack.
  rewrite H, Hs. apply Z.leb_le in Hl. rewrite Hl. reflexivity.
Qed.

Lemma engine_failure_idle (id : Z) (c : Coordinator) :
  (forall t, tracks (storage c) !! id = Some t ->
             status_is t "processing" = false) ->
  engine_failure id c = c.
Proof.
  intros H. unfold engine_failure, getAudioTrack.
  destruct (tracks (storage c) !! id) as [t|] eqn:E; [|reflexivity].
  rewrite (H t eq_refl). reflexivity.
Qed.

Lemma engine_failure_recorded (id : Z) (c : Coordinator) (t : obj) :
  tracks (storage c) !! id = Some t ->
  status_is t "processing" = true ->
  engine_failure id c =
  {| storage := (updateAudioTrack id (status_patch "failed") (storage c)).2;
     engine_calls := engine_calls c |}.
Proof.
  intros H Hs. unfold engine_failure, getAudioTrack. rewrite H, Hs. reflexivity.
Qed.

(** The four ways a submission ends. *)
Lemma Submit_cases (id : Z) (settings : value) (c : Coordinator) :
  (exists e, Submit id settings c = (Err e, c)) \/
  (exists t,
     tracks (storage c) !! id = Some t /\
     status_is t "processing" = false /\
     (extendedPaths_length t < MAX_VERSIONS)%Z /\
     Submit id settings c =
     (Ok tt,
      {| storage := (updateAudioTrack id (submit_patch settings) (storage c)).2;
         engine_calls := engine_calls c ++ [(id, settings)] |})).
Proof.
  destruct (tracks (storage c) !! id) as [t|] eqn:E.
  - destruct (status_is t "processing") eqn:Es.
    + left. eexists. eapply Submit_processing; eassumption.
    + destruct (Z_lt_le_dec (extendedPaths_length t) MAX_VERSIONS) as [Hl|Hl].
      * right. exists t. repeat split; try assumption.
        apply (Submit_accepted _ _ _ t); assumption.
      * left. eexists. eapply Submit_full; eassumption.
  - left. eexists. apply Submit_unknown, E.
Qed.

(** *** The version cap is invariant *)

Lemma record_bounded_status (t t' : obj) (st : string) :
  t' !! "extendedPaths" = t !! "extendedPaths" ->
  t' !! "status" = Some (VStr st) ->
  st <> "processing" ->
  (extendedPaths_length t <= MAX_VERSIONS)%Z ->
  record_bounded t'.
Proof.
  intros Hv Hs Hne Hl. split.
  - rewrite (extendedPaths_length_ext _ _ Hv). exact Hl.
  - unfold status_is. rewrite Hs. intros Heq.
    apply String.eqb_eq in Heq. contradiction.
Qed.

Lemma Submit_bounded (id : Z) (settings : value) (c : Coordinator) :
  versions_bounded (storage c) ->
  versions_bounded (storage (Submit id settings c).2).
Proof.
  intros Hb.
  destruct (Submit_cases id settings c) as [[e He]|(t & Ht & Hs & Hl & He)];
    rewrite He; simpl; [exact Hb|].
  eapply versions_bounded_insert; [exact Hb| |].
  2:{ rewrite (updateAudioTrack_present _ _ _ _ Ht). reflexivity. }
  split.
  - rewrite (extendedPaths_length_ext _ _ (submit_patch_versions t settings)).
    lia.
  - intros _.
    rewrite (extendedPaths_length_ext _ _ (submit_patch_versions t settings)).
    exact Hl.
Qed.

Lemma engine_success_bounded (id : Z) (out : EngineOutput) (c : Coordinator) :
  versions_bounded (storage c) ->
  versions_bounded (storage (engine_success id out c)).
Proof.
  intros Hb.
  destruct (tracks (storage c) !! id) as [t|] eqn:Ht.
  2:{ rewrite engine_success_idle; [exact Hb|]. intros t Ht'. congruence. }
  destruct (status_is t "processing") eqn:Hs.
  2:{ rewrite engine_success_idle; [exact Hb|]. intros t' Ht'. congruence. }
  destruct (Z_lt_le_dec (extendedPaths_length t) MAX_VERSIONS) as [Hl|Hl].
  - rewrite (engine_success_commit _ _ _ _ Ht Hs Hl). simpl.
    eapply versions_bounded_insert; [exact Hb| |].
    2:{ apply updateAudioTrack_twice, Ht. }
    eapply (record_bounded_status
              (spread t (append_patch t (artifactPath out) (durationSeconds out)))).
    + apply completed_patch_versions.
    + apply completed_patch_status.
    + discriminate.
    + unfold extendedPaths_length at 1. rewrite append_patch_versions.
      rewrite length_app. simpl.
      rewrite extendedPaths_length_eq in Hl. unfold MAX_VERSIONS in *. lia.
  - rewrite (engine_success_refused _ _ _ _ Ht Hs Hl). simpl.
    eapply versions_bounded_insert; [exact Hb| |].
    2:{ rewrite (updateAudioTrack_present _ _ _ _ Ht). reflexivity. }
    eapply (record_bounded_status t).
    + apply status_patch_versions.
    + apply status_patch_status.
    + discriminate.
    + exact (proj1 (Hb _ _ Ht)).
Qed.

Lemma engine_failure_bounded (id : Z) (c : Coordinator) :
  versions_bounded (storage c) ->
  versions_bounded (storage (engine_failure id c)).
Proof.
  intros Hb.
  destruct (tracks (storage c) !! id) as [t|] eqn:Ht.
  2:{ rewrite engine_failure_idle; [exact Hb|]. intros t Ht'. congruence. }
  destruct (status_is t "processing") eqn:Hs.
  2:{ rewrite engine_failure_idle; [exact Hb|]. intros t' Ht'. congruence. }
  rewrite (engine_failure_recorded _ _ _ Ht Hs). simpl.
  eapply versions_bounded_insert; [exact Hb| |].
  2:{ rewrite (updateAudioTrack_present _ _ _ _ Ht). reflexivity. }
  eapply (record_bounded_status t).
  - apply status_patch_versions.
  - apply status_patch_status.
  - discriminate.
  - exact (proj1 (Hb _ _ Ht)).
Qed.

Lemma step_bounded (ev : event) (c : Coordinator) :
  versions_bounded (storage c) ->
  versions_bounded (storage (step ev c)).
Proof.
  intros Hb. destruct ev as [i|id settings|id out|id|id|]; simpl.
  - apply versions_bounded_create; [exact Hb|apply insert_obj_no_versions].
  - apply Submit_bounded, Hb.
  - apply engine_success_bounded, Hb.
  - apply engine_failure_bounded, Hb.
  - exact Hb.
  - intros k t Hk. simpl in Hk. rewrite lookup_empty in Hk. discriminate.
Qed.

Lemma run_bounded (evs : list event) (c : Coordinator) :
  versions_bounded (storage c) ->
  versions_bounded (storage (run evs c)).
Proof.
  revert c. induction evs as [|ev evs' IH]; intros c Hb; simpl.
  - exact Hb.
  - apply IH, step_bounded, Hb.
Qed.

Lemma reachable_bounded (c : Coordinator) :
  reachable c -> versions_bounded (storage c).
Proof.
  intros [evs ->]. apply run_bounded.
  intros k t Hk. simpl in Hk. rewrite lookup_empty in Hk. discriminate.
Qed.

(** C1.  In every state the coordinator can reach, every track holds at most
    four versions; and for a track that holds four, a further submission is
    answered [CapacityExceeded] and changes nothing: no launch of the engine
    is logged and the track keeps its four versions.  The regenerate button of
    the client is disabled for such a track. *)
Theorem version_cap (c : Coordinator) :
  reachable c ->
  (forall id t,
     tracks (storage c) !! id = Some t ->
     (length (extendedPaths t) <= 4)%nat) /\
  (forall id t settings,
     tracks (storage c) !! id = Some t ->
     length (extendedPaths t) = 4%nat ->
     Submit id settings c = (Err CapacityExceeded, c) /\
     forall isProcessing, regenerate_disabled t isProcessing = true).
Proof.
  intros Hr. pose proof (reachable_bounded c Hr) as Hb. split.
  - intros id t Ht. destruct (Hb id t Ht) as [Hl _].
    rewrite extendedPaths_length_eq in Hl. unfold MAX_VERSIONS in Hl. lia.
  - intros id t settings Ht Hfour.
    destruct (Hb id t Ht) as [_ Hp].
    assert (Hlen : extendedPaths_length t = 4%Z).
    { rewrite extendedPaths_length_eq, Hfour. reflexivity. }
    split.
    + apply (Submit_full _ _ _ t Ht).
      * destruct (status_is t "processing"); [|reflexivity].
        specialize (Hp eq_refl). unfold MAX_VERSIONS in Hp. lia.
      * unfold MAX_VERSIONS. lia.
    + intros b. unfold regenerate_disabled. rewrite Hlen.
      destruct (status_is t "processing"), b; reflexivity.
Qed.

Lemma version_cap_witness :
  reachable four_versions /\
  (forall id t,
     tracks (storage four_versions) !! id = Some t ->
     (length (extendedPaths t) <= 4)%nat) /\
  (forall id t settings,
     tracks (storage four_versions) !! id = Some t ->
     length (extendedPaths t) = 4%nat ->
     Submit id settings four_versions = (Err CapacityExceeded, four_versions) /\
     forall isProcessing, regenerate_disabled t isProcessing = true).
Proof.
  split.
  - exists four_generations. reflexivity.
  - apply (version_cap four_versions). exists four_generations. reflexivity.
Defined.

(** The scenario itself: after four generations the track has the four
    artifacts in order, and the fifth submission is refused. *)
Example fifth_submission_refused :
  (extendedPaths <$> tracks (storage four_versions) !! 1%Z)
  = Some [VStr "A1"; VStr "A2"; VStr "A3"; VStr "A4"] /\
  Submit 1 intro8 four_versions = (Err CapacityExceeded, four_versions).
Proof. split; vm_compute; reflexivity. Qed.

(** C3.  A submission for a track whose status is "processing" is answered
    [AlreadyProcessing] and changes nothing: the status stays as it is and no
    launch is logged.  Both variants of the client's regenerate button are
    disabled for such a track. *)
Theorem submit_while_processing (id : Z) (settings : value) (c : Coordinator) (t : obj) :
  tracks (storage c) !! id = Some t ->
  status_is t "processing" = true ->
  Submit id settings c = (Err AlreadyProcessing, c) /\
  forall isProcessing,
    regenerate_disabled_v1 t isProcessing = true /\
    regenerate_disabled t isProcessing = true.
Proof.
  intros Ht Hs. split.
  - apply (Submit_processing _ _ _ t Ht Hs).
  - intros b. unfold regenerate_disabled_v1, regenerate_disabled.
    rewrite Hs. split; reflexivity.
Qed.

Lemma submit_while_processing_witness :
  Submit 1 intro8 generating = (Err AlreadyProcessing, generating) /\
  forall isProcessing,
    regenerate_disabled_v1 song_in_progress isProcessing = true /\
    regenerate_disabled song_in_progress isProcessing = true.
Proof.
  apply (submit_while_processing 1 intro8 generating song_in_progress).
  - reflexivity.
  - reflexivity.
Defined.

(** *** The coordinator writes through [updateAudioTrack] only *)

Lemma updates_wf (id : Z) (patches : list obj) (s : MemStorage) :
  store_wf s -> store_wf (updates id patches s).
Proof.
  revert s. induction patches as [|p ps IH]; intros s Hwf; simpl.
  - exact Hwf.
  - apply IH, updateAudioTrack_wf, Hwf.
Qed.

Lemma updates_other (id k : Z) (patches : list obj) (s : MemStorage) :
  k <> id -> tracks (updates id patches s) !! k = tracks s !! k.
Proof.
  intros Hne. revert s. induction patches as [|p ps IH]; intros s; simpl.
  - reflexivity.
  - rewrite IH. apply updateAudioTrack_other, Hne.
Qed.

Lemma updates_keeps (id k : Z) (patches : list obj) (s : MemStorage) :
  is_Some (tracks s !! k) -> is_Some (tracks (updates id patches s) !! k).
Proof.
  revert s. induction patches as [|p ps IH]; intros s Hk; simpl.
  - exact Hk.
  - apply IH, updateAudioTrack_keeps, Hk.
Qed.

Lemma Submit_updates (id : Z) (settings : value) (c : Coordinator) :
  exists patches calls,
    (Submit id settings c).2 =
    {| storage := updates id patches (storage c);
       engine_calls := engine_calls c ++ calls |} /\
    Forall (fun call => call.1 = id) calls.
Proof.
  destruct (Submit_cases id settings c) as [[e He]|(t & _ & _ & _ & He)];
    rewrite He; simpl.
  - exists [], []. split; [|constructor].
    rewrite app_nil_r. destruct c; reflexivity.
  - exists [submit_patch settings], [(id, settings)]. split; [reflexivity|].
    repeat constructor.
Qed.

Lemma engine_success_updates (id : Z) (out : EngineOutput) (c : Coordinator) :
  exists patches,
    engine_success id out c =
    {| storage := updates id patches (storage c);
       engine_calls := engine_calls c |}.
Proof.
  destruct (tracks (storage c) !! id) as [t|] eqn:Ht.
  2:{ exists []. rewrite engine_success_idle; [destruct c; reflexivity|].
      intros t Ht'. congruence. }
  destruct (status_is t "processing") eqn:Hs.
  2:{ exists []. rewrite engine_success_idle; [destruct c; reflexivity|].
      intros t' Ht'. congruence. }
  destruct (Z_lt_le_dec (extendedPaths_length t) MAX_VERSIONS) as [Hl|Hl].
  - rewrite (engine_success_commit _ _ _ _ Ht Hs Hl).
    exists [append_patch t (artifactPath out) (durationSeconds out);
            completed_patch out]. reflexivity.
  - rewrite (engine_success_refused _ _ _ _ Ht Hs Hl).
    exists [status_patch "failed"]. reflexivity.
Qed.

Lemma engine_failure_updates (id : Z) (c : Coordinator) :
  exists patches,
    engine_failure id c =
    {| storage := updates id patches (storage c);
       engine_calls := engine_calls c |}.
Proof.
  destruct (tracks (storage c) !! id) as [t|] eqn:Ht.
  2:{ exists []. rewrite engine_failure_idle; [destruct c; reflexivity|].
      intros t Ht'. congruence. }
  destruct (status_is t "processing") eqn:Hs.
  2:{ exists []. rewrite engine_failure_idle; [destruct c; reflexivity|].
      intros t' Ht'. congruence. }
  rewrite (engine_failure_recorded _ _ _ Ht Hs).
  exists [status_patch "failed"]. reflexivity.
Qed.

Lemma step_wf (ev : event) (c : Coordinator) :
  store_wf (storage c) -> store_wf (storage (step ev c)).
Proof.
  intros Hwf. destruct ev as [i|id settings|id out|id|id|]; simpl.
  - apply createAudioTrack_wf, Hwf.
  - destruct (Submit_updates id settings c) as (ps & calls & -> & _).
    apply updates_wf, Hwf.
  - destruct (engine_success_updates id out c) as [ps ->].
    apply updates_wf, Hwf.
  - destruct (engine_failure_updates id c) as [ps ->].
    apply updates_wf, Hwf.
  - exact Hwf.
  - intros k [t Hk]. simpl in Hk. rewrite lookup_empty in Hk. discriminate.
Qed.

Lemma run_wf (evs : list event) (c : Coordinator) :
  store_wf (storage c) -> store_wf (storage (run evs c)).
Proof.
  revert c. induction evs as [|ev evs' IH]; intros c Hwf; simpl.
  - exact Hwf.
  - apply IH, step_wf, Hwf.
Qed.

Lemma reachable_wf (c : Coordinator) : reachable c -> store_wf (storage c).
Proof. intros [evs ->]. apply run_wf, new_MemStorage_wf. Qed.

(** Every event but the bulk clear keeps every track in the store. *)
Lemma step_keeps (ev : event) (c : Coordinator) (k : Z) :
  ev <> EvClearAll ->
  is_Some (tracks (storage c) !! k) ->
  is_Some (tracks (storage (step ev c)) !! k).
Proof.
  intros Hev Hk. destruct ev as [i|id settings|id out|id|id|]; simpl.
  - destruct (decide (k = trackIdCounter (storage c))) as [->|Hne].
    + rewrite lookup_insert_eq. eauto.
    + rewrite lookup_insert_ne by congruence. exact Hk.
  - destruct (Submit_updates id settings c) as (ps & calls & -> & _).
    apply updates_keeps, Hk.
  - destruct (engine_success_updates id out c) as [ps ->].
    apply updates_keeps, Hk.
  - destruct (engine_failure_updates id c) as [ps ->].
    apply updates_keeps, Hk.
  - exact Hk.
  - contradiction.
Qed.

(** *** Two submissions for one track *)











(** The write itself compares nothing: on a track that is processing, the
    patch of a submission is merged like any other. *)
Example updateAudioTrack_compares_nothing :
  (fun t => status_is t "processing")
    <$> (updateAudioTrack 1 (submit_patch intro8) (storage generating)).1
  = Some true /\
  tracks (storage generating) !! 1%Z = Some song_in_progress.
Proof. vm_compute. split; reflexivity. Qed.

(** The store enforces no cap of its own: [updateAudioTrack] takes a patch
    with five versions as it takes any other.  The cap is the coordinator's
    guard (and the client's disabled button). *)
Example updateAudioTrack_takes_any_patch :
  extendedPaths_length <$>
    (updateAudioTrack 1
       (obj_literal ∅
          [ ("extendedPaths",
             VArr [VStr "A1"; VStr "A2"; VStr "A3"; VStr "A4"; VStr "A5"]) ])
       two_tracks).1
  = Some 5%Z.
Proof. vm_compute. reflexivity. Qed.

(** C4.  The bulk clear answers with the number of tracks the store held and
    leaves a store in which no id is found.  Nothing else removes a track: a
    track of a reachable store is still there after any call of the store
    ([createAudioTrack] and every update of another id leave its record as
    it is) and after any event of the coordinator other than the bulk
    clear. *)
Theorem clearAll_only_destroyer (c : Coordinator) (id : Z) (t : obj) :
  reachable c ->
  tracks (storage c) !! id = Some t ->
  (clearAll (storage c)).1 = Z.of_nat (size (dom (tracks (storage c)))) /\
  (forall k, getAudioTrack k (clearAll (storage c)).2
             = (None, (clearAll (storage c)).2)) /\
  (forall call, is_Some (tracks (perform call (storage c)).2 !! id)) /\
  (forall track, tracks (createAudioTrack track (storage c)).2 !! id = Some t) /\
  (forall k update, k <> id ->
     tracks (updateAudioTrack k update (storage c)).2 !! id = Some t) /\
  (forall ev, ev <> EvClearAll ->
     is_Some (tracks (storage (step ev c)) !! id)).
Proof.
  intros Hr Ht. pose proof (reachable_wf c Hr) as Hwf.
  assert (Hid : is_Some (tracks (storage c) !! id)) by eauto.
  split; [|split; [|split; [|split; [|split]]]].
  - simpl. rewrite size_dom. reflexivity.
  - intros k. unfold getAudioTrack. simpl. rewrite lookup_empty. reflexivity.
  - intros [track|k update|k|uid]; simpl.
    + destruct (decide (id = trackIdCounter (storage c))) as [->|Hne].
      * rewrite lookup_insert_eq. eauto.
      * rewrite lookup_insert_ne by congruence. exact Hid.
    + pose proof (updateAudioTrack_keeps k id update (storage c) Hid) as H.
      destruct (updateAudioTrack k update (storage c)). exact H.
    + exact Hid.
    + exact Hid.
  - intros track. rewrite createAudioTrack_other; [exact Ht|].
    specialize (Hwf id Hid). lia.
  - intros k update Hk. rewrite updateAudioTrack_other by congruence. exact Ht.
  - intros ev Hev. apply step_keeps; assumption.
Qed.

Lemma clearAll_only_destroyer_witness :
  (clearAll (storage generating)).1
  = Z.of_nat (size (dom (tracks (storage generating)))) /\
  (forall k, getAudioTrack k (clearAll (storage generating)).2
             = (None, (clearAll (storage generating)).2)) /\
  (forall call, is_Some (tracks (perform call (storage generating)).2 !! 1%Z)) /\
  (forall track,
     tracks (createAudioTrack track (storage generating)).2 !! 1%Z
     = Some song_in_progress) /\
  (forall k update, k <> 1%Z ->
     tracks (updateAudioTrack k update (storage generating)).2 !! 1%Z
     = Some song_in_progress) /\
  (forall ev, ev <> EvClearAll ->
     is_Some (tracks (storage (step ev generating)) !! 1%Z)).
Proof.
  apply (clearAll_only_destroyer generating 1 song_in_progress).
  - exists [ EvCreate upload_song; EvCreate upload_song; EvSubmit 1 intro16 ].
    reflexivity.
  - reflexivity.
Defined.

(** The clear on the running example: two tracks were held, none is left. *)
Example clearAll_generating :
  (clearAll (storage generating)).1 = 2%Z /\
  tracks (clearAll (storage generating)).2 = ∅.
Proof. split; vm_compute; reflexivity. Qed.

(** * Further properties of the store *)

(** ** Iteration order *)

Lemma keys_ascending_elem (m : gmap Z obj) (k : Z) :
  k ∈ keys_ascending m <-> is_Some (m !! k).
Proof.
  unfold keys_ascending. rewrite merge_sort_Permutation.
  rewrite elem_of_elements. apply elem_of_dom.
Qed.

Lemma keys_ascending_sorted (m : gmap Z obj) :
  StronglySorted Z.le (keys_ascending m).
Proof. apply StronglySorted_merge_sort; apply _. Qed.

Lemma keys_ascending_insert_new (m : gmap Z obj) (k : Z) (v : obj) :
  (forall k', is_Some (m !! k') -> (k' < k)%Z) ->
  keys_ascending (<[k := v]> m) = (keys_ascending m ++ [k])%list.
Proof.
  intros Hnew.
  assert (Hk : m !! k = None).
  { destruct (m !! k) eqn:E; [|reflexivity].
    assert (k < k)%Z by (apply Hnew; eauto). lia. }
  apply (StronglySorted_unique Z.le).
  - apply keys_ascending_sorted.
  - apply StronglySorted_app_2;
      [|apply keys_ascending_sorted|repeat constructor].
    intros x1 x2 Hx1 Hx2. apply list_elem_of_singleton in Hx2 as ->.
    apply keys_ascending_elem in Hx1. specialize (Hnew x1 Hx1). lia.
  - unfold keys_ascending. rewrite !merge_sort_Permutation.
    rewrite dom_insert_L, elements_union_singleton.
    + apply Permutation_cons_append.
    + rewrite elem_of_dom, Hk. intros [x Hx]. discriminate.
Qed.

Lemma keys_ascending_insert_old (m : gmap Z obj) (k : Z) (v : obj) :
  is_Some (m !! k) ->
  keys_ascending (<[k := v]> m) = keys_ascending m.
Proof.
  intros Hk. unfold keys_ascending. f_equal. f_equal.
  rewrite dom_insert_L. apply elem_of_dom in Hk.
  apply set_eq. intros x. rewrite elem_of_union, elem_of_singleton.
  split; [intros [->|Hx]; assumption|intros Hx; right; exact Hx].
Qed.

Lemma omap_lookup_insert_ne (m : gmap Z obj) (k : Z) (v : obj) (ks : list Z) :
  k ∉ ks ->
  omap (fun k' => <[k := v]> m !! k') ks = omap (fun k' => m !! k') ks.
Proof.
  induction ks as [|k' ks IH]; intros Hk; [reflexivity|].
  apply not_elem_of_cons in Hk as [Hne Hk].
  change (omap ?f (k' :: ks)) with (from_option (fun y => y :: omap f ks) (omap f ks) (f k')).
  cbv beta. rewrite lookup_insert_ne by congruence.
  rewrite IH by assumption. reflexivity.
Qed.

Lemma values_ascending_elem (m : gmap Z obj) (t : obj) :
  t ∈ values_ascending m <-> exists k, m !! k = Some t.
Proof.
  unfold values_ascending. rewrite list_elem_of_omap. split.
  - intros (k & _ & Hk). eauto.
  - intros [k Hk]. exists k. split; [|exact Hk].
    apply keys_ascending_elem. eauto.
Qed.

Lemma values_ascending_insert_new (m : gmap Z obj) (k : Z) (v : obj) :
  (forall k', is_Some (m !! k') -> (k' < k)%Z) ->
  values_ascending (<[k := v]> m) = (values_ascending m ++ [v])%list.
Proof.
  intros Hnew. unfold values_ascending.
  rewrite keys_ascending_insert_new by assumption.
  rewrite omap_app. simpl. rewrite lookup_insert_eq. f_equal.
  apply omap_lookup_insert_ne. intros Hin.
  apply keys_ascending_elem in Hin. specialize (Hnew k Hin). lia.
Qed.

(** The first match of an ascending scan is the match with the least key. *)
Lemma find_ascending (f : Z -> option obj) (P : obj -> bool) (ks : list Z) :
  StronglySorted Z.le ks ->
  match List.find P (omap f ks) with
  | Some u =>
      exists k, k ∈ ks /\ f k = Some u /\ P u = true /\
        forall k' u', k' ∈ ks -> f k' = Some u' -> P u' = true -> (k <= k')%Z
  | None =>
      forall k u, k ∈ ks -> f k = Some u -> P u = false
  end.
Proof.
  intros Hsorted. induction Hsorted as [|k ks Hs IH Hall].
  - simpl. intros k u Hk. inversion Hk.
  - rewrite Forall_forall in Hall.
    change (omap f (k :: ks))
      with (from_option (fun y => y :: omap f ks) (omap f ks) (f k)).
    destruct (f k) as [t|] eqn:Ek; cbn [from_option List.find].
    + destruct (P t) eqn:Ep.
      * exists k. split; [apply elem_of_cons; left; reflexivity|].
        split; [exact Ek|]. split; [exact Ep|].
        intros k' u' Hk' _ _. apply elem_of_cons in Hk' as [->|Hk']; [lia|].
        apply Hall, Hk'.
      * destruct (List.find P (omap f ks)) as [u|].
        -- destruct IH as (k0 & Hk0 & Hf0 & Hp0 & Hmin).
           exists k0. split; [apply elem_of_cons; right; exact Hk0|]. split; [exact Hf0|].
           split; [exact Hp0|].
           intros k' u' Hk' Hf' Hp'. apply elem_of_cons in Hk' as [->|Hk'].
           ++ congruence.
           ++ eapply Hmin; eassumption.
        -- intros k' u' Hk' Hf'. apply elem_of_cons in Hk' as [->|Hk'].
           ++ congruence.
           ++ eapply IH; eassumption.
    + destruct (List.find P (omap f ks)) as [u|].
      * destruct IH as (k0 & Hk0 & Hf0 & Hp0 & Hmin).
        exists k0. split; [apply elem_of_cons; right; exact Hk0|]. split; [exact Hf0|].
        split; [exact Hp0|].
        intros k' u' Hk' Hf' Hp'. apply elem_of_cons in Hk' as [->|Hk'].
        -- congruence.
        -- eapply Hmin; eassumption.
      * intros k' u' Hk' Hf'. apply elem_of_cons in Hk' as [->|Hk'].
        -- congruence.
        -- eapply IH; eassumption.
Qed.

(** ** Listing the tracks of a user *)

Lemma written_absent (props : list (string * value)) (k : string)
  (acc : option value) :
  k ∉ props.*1 -> written props k acc = acc.
Proof.
  revert acc. induction props as [|[k' v] rest IH]; intros acc Hk; simpl.
  - reflexivity.
  - simpl in Hk. apply not_elem_of_cons in Hk as [Hne Hk].
    rewrite IH by exact Hk.
    destruct (String.eqb_spec k' k); [congruence|reflexivity].
Qed.

Lemma createAudioTrack_passes (track : obj) (s : MemStorage) (f : string) :
  f ∉ createAudioTrack_fields ->
  (createAudioTrack track s).1 !! f = track !! f.
Proof.
  intros Hf. rewrite createAudioTrack_lookup. apply written_absent. exact Hf.
Qed.

(** X1.  [getAudioTracksByUserId] returns exactly the stored records whose
    [userId] is the number asked for, and leaves the store as it is. *)
Theorem getAudioTracksByUserId_exact (uid : Z) (s : MemStorage) (t : obj) :
  (t ∈ (getAudioTracksByUserId uid s).1 <->
   (exists k, tracks s !! k = Some t) /\ t !! "userId" = Some (VNum uid)) /\
  (getAudioTracksByUserId uid s).2 = s.
Proof.
  split; [|reflexivity]. unfold getAudioTracksByUserId. simpl.
  rewrite list_elem_of_In, List.filter_In, <- list_elem_of_In.
  change (tracks_values s) with (values_ascending (tracks s)).
  rewrite values_ascending_elem. unfold userId_is.
  split; intros [Hk Hu]; (split; [exact Hk|]).
  - destruct (t !! "userId") as [[]|]; try discriminate.
    apply Z.eqb_eq in Hu. congruence.
  - rewrite Hu. apply Z.eqb_refl.
Qed.

Lemma tracks_values_create (track : obj) (s : MemStorage) :
  store_wf s ->
  tracks_values (createAudioTrack track s).2
  = (tracks_values s ++ [(createAudioTrack track s).1])%list.
Proof.
  intros Hwf.
  exact (values_ascending_insert_new (tracks s) (trackIdCounter s) _ Hwf).
Qed.

Lemma two_tracks_wf : store_wf two_tracks.
Proof.
  unfold two_tracks. cbv zeta.
  apply updateAudioTrack_wf, createAudioTrack_wf, createAudioTrack_wf,
    new_MemStorage_wf.
Qed.

(** X2.  On a store whose ids all came from the counter, a track created
    for a user comes last in that user's list, after the tracks listed
    before, and the lists of the other users are as before. *)
Theorem getAudioTracksByUserId_after_create (uid : Z) (track : obj) (s : MemStorage) :
  store_wf s ->
  (getAudioTracksByUserId uid (createAudioTrack track s).2).1 =
  ((getAudioTracksByUserId uid s).1 ++
   (if userId_is track uid then [(createAudioTrack track s).1] else []))%list.
Proof.
  intros Hwf. unfold getAudioTracksByUserId. cbn [fst].
  rewrite (tracks_values_create track s Hwf).
  rewrite List.filter_app. cbn [List.filter]. f_equal.
  assert (Hu : userId_is (createAudioTrack track s).1 uid = userId_is track uid).
  { unfold userId_is. rewrite createAudioTrack_passes; [reflexivity|].
    apply (bool_decide_unpack _). vm_compute. exact I. }
  rewrite Hu. destruct (userId_is track uid); reflexivity.
Qed.

Lemma getAudioTracksByUserId_after_create_witness :
  (getAudioTracksByUserId 7 (createAudioTrack upload_with_extras two_tracks).2).1 =
  ((getAudioTracksByUserId 7 two_tracks).1 ++
   (if userId_is upload_with_extras 7
    then [(createAudioTrack upload_with_extras two_tracks).1] else []))%list.
Proof.
  apply (getAudioTracksByUserId_after_create 7 upload_with_extras two_tracks).
  exact two_tracks_wf.
Defined.

(** ** Creating, reading back and updating *)

(** X3.  A record just created reads back under its id as the record
    returned: it carries that id, and every property of the input other than
    the ten that [createAudioTrack] writes itself is as the caller gave it. *)
Theorem createAudioTrack_read_back (track : obj) (s : MemStorage) :
  getAudioTrack (trackIdCounter s) (createAudioTrack track s).2
  = (Some (createAudioTrack track s).1, (createAudioTrack track s).2) /\
  track_id (createAudioTrack track s).1 = Some (trackIdCounter s) /\
  forall f, f ∉ createAudioTrack_fields ->
    (createAudioTrack track s).1 !! f = track !! f.
Proof.
  split; [|split].
  - unfold getAudioTrack. rewrite createAudioTrack_stored. reflexivity.
  - apply createAudioTrack_id.
  - intros f Hf. apply createAudioTrack_passes, Hf.
Qed.

Lemma spread_assoc (t p1 p2 : obj) :
  spread (spread t p1) p2 = spread t (spread p1 p2).
Proof. unfold spread. apply (assoc_L (∪)). Qed.

Lemma MemStorage_eta (s : MemStorage) :
  {| tracks := tracks s; trackIdCounter := trackIdCounter s |} = s.
Proof. destruct s. reflexivity. Qed.

(** X4.  Two updates of the same id in a row are one update with the two
    patches merged, the later patch winning; in particular an update with the
    empty patch changes nothing in the store.  This holds whether or not the
    id is present. *)
Theorem updateAudioTrack_compose (id : Z) (p1 p2 : obj) (s : MemStorage) :
  updateAudioTrack id p2 (updateAudioTrack id p1 s).2
  = updateAudioTrack id (spread p1 p2) s /\
  (updateAudioTrack id ∅ s).2 = s.
Proof.
  destruct (tracks s !! id) as [t|] eqn:Ht.
  - split.
    + rewrite (updateAudioTrack_present _ _ _ _ Ht). simpl.
      unfold updateAudioTrack at 1. simpl. rewrite lookup_insert_eq.
      rewrite (updateAudioTrack_present _ _ _ _ Ht).
      rewrite insert_insert_eq, spread_assoc. reflexivity.
    + rewrite (updateAudioTrack_present _ _ _ _ Ht). simpl.
      unfold spread. rewrite (left_id_L ∅ (∪)).
      rewrite (insert_id _ _ _ Ht). apply MemStorage_eta.
  - rewrite !(updateAudioTrack_absent _ _ _ Ht). cbn [snd].
    rewrite ?(updateAudioTrack_absent _ _ _ Ht). split; reflexivity.
Qed.

(** ** Ids *)

(** X5.  The ids assigned by the creations of a run are consecutive: the
    n-th creation on a store gets the counter's value plus n-1, so from a
    fresh store the ids are 1, 2, 3, ...; and the counter ends that many
    above where it began, whatever other calls come in between. *)
Theorem created_ids_consecutive (cs : list store_call) (s : MemStorage) :
  created_ids cs s
  = seqZ (trackIdCounter s) (Z.of_nat (length (List.filter is_create cs))) /\
  created_ids cs new_MemStorage
  = seqZ 1 (Z.of_nat (length (List.filter is_create cs))) /\
  trackIdCounter (run_calls cs s)
  = (trackIdCounter s + Z.of_nat (length (List.filter is_create cs)))%Z.
Proof.
  destruct (created_ids_counter cs s) as [H1 H2].
  destruct (created_ids_counter cs new_MemStorage) as [H3 _].
  split; [exact H1|]. split; [exact H3|exact H2].
Qed.

Lemma ids_consistent_insert (id : Z) (t : obj) (s s' : MemStorage) :
  ids_consistent s ->
  track_id t = Some id ->
  tracks s' = <[id := t]> (tracks s) ->
  ids_consistent s'.
Proof.
  intros Hc Ht Heq k t' Hk. rewrite Heq in Hk.
  destruct (decide (k = id)) as [->|Hne].
  - rewrite lookup_insert_eq in Hk. congruence.
  - rewrite lookup_insert_ne in Hk by congruence. exact (Hc k t' Hk).
Qed.

Lemma perform_ids_consistent (c : store_call) (s : MemStorage) :
  ids_consistent s ->
  leaves_id c = true ->
  ids_consistent (perform c s).2.
Proof.
  intros Hc Hl. destruct c as [track|id update|id|uid]; simpl.
  - eapply ids_consistent_insert; [exact Hc| |reflexivity].
    apply createAudioTrack_id.
  - destruct (tracks s !! id) as [t|] eqn:Ht.
    + rewrite (updateAudioTrack_present _ _ _ _ Ht).
      eapply ids_consistent_insert; [exact Hc| |reflexivity].
      simpl in Hl. apply bool_decide_eq_true in Hl.
      unfold track_id. rewrite (spread_lookup_absent _ _ _ Hl).
      exact (Hc id t Ht).
    + rewrite (updateAudioTrack_absent _ _ _ Ht). exact Hc.
  - exact Hc.
  - exact Hc.
Qed.

Lemma run_calls_ids_consistent (cs : list store_call) (s : MemStorage) :
  ids_consistent s ->
  forallb leaves_id cs = true ->
  ids_consistent (run_calls cs s).
Proof.
  revert s. induction cs as [|c cs' IH]; intros s Hc Hall; simpl.
  - exact Hc.
  - simpl in Hall. apply andb_true_iff in Hall as [Hl Hall].
    apply IH; [|exact Hall]. apply perform_ids_consistent; assumption.
Qed.

(** X6.  As long as no update patch has an [id] property, every record of
    a store built from the constructor carries, as its [id], the key it is
    stored under: what [getAudioTrack(k)] returns has [id] equal to [k]. *)
Theorem stored_id_is_key (cs : list store_call) (k : Z) (t : obj) :
  forallb leaves_id cs = true ->
  (getAudioTrack k (run_calls cs new_MemStorage)).1 = Some t ->
  t !! "id" = Some (VNum k).
Proof.
  intros Hall Hk.
  assert (Hc : ids_consistent (run_calls cs new_MemStorage)).
  { apply run_calls_ids_consistent; [|exact Hall].
    intros k' t' Hk'. simpl in Hk'. rewrite lookup_empty in Hk'. discriminate. }
  specialize (Hc k t Hk). unfold track_id in Hc.
  destruct (t !! "id") as [[]|]; congruence.
Qed.

Lemma stored_id_is_key_witness :
  forallb leaves_id some_calls = true /\
  (getAudioTrack 2 (run_calls some_calls new_MemStorage)).1
  = Some (createAudioTrack upload_with_extras
            (createAudioTrack (insert_obj upload_song) new_MemStorage).2).1 /\
  (createAudioTrack upload_with_extras
     (createAudioTrack (insert_obj upload_song) new_MemStorage).2).1 !! "id"
  = Some (VNum 2).
Proof.
  split; [reflexivity|]. split; [reflexivity|].
  apply (stored_id_is_key some_calls 2); reflexivity.
Defined.

(** Without that proviso the store does not hold the property: a patch may
    carry an [id], and it is merged like any other property. *)
Example update_can_change_id :
  (fun r => r !! "id") <$>
    (updateAudioTrack 1 (obj_literal ∅ [ ("id", VNum 9) ]) two_tracks).1
  = Some (Some (VNum 9)).
Proof. vm_compute. reflexivity. Qed.

(** ** Users *)

Lemma createUser_lookup (insertUser : obj) (s : UserStorage) (f : string) :
  (createUser insertUser s).1 !! f
  = if String.eqb "id" f then Some (VNum (userIdCounter s)) else insertUser !! f.
Proof. exact (obj_literal_lookup _ insertUser f). Qed.

Lemma createUser_username (insertUser : obj) (s : UserStorage) (name : string) :
  username_is (createUser insertUser s).1 name = username_is insertUser name.
Proof. unfold username_is. rewrite createUser_lookup. reflexivity. Qed.

Lemma find_snoc (P : obj -> bool) (l : list obj) (v : obj) :
  List.find P (l ++ [v])
  = match List.find P l with
    | Some u => Some u
    | None => if P v then Some v else None
    end.
Proof.
  induction l as [|x l IH]; simpl.
  - reflexivity.
  - destruct (P x); [reflexivity|exact IH].
Qed.

(** X7.  A user just created reads back under the new id as the user
    returned: its [id] is that id, whatever [id] the caller supplied, and every
    other property is the caller's.  On a store whose ids all came from the
    counter, the users already there read back as before. *)
Theorem createUser_read_back (insertUser : obj) (s : UserStorage) :
  users_wf s ->
  getUser (userIdCounter s) (createUser insertUser s).2
  = (Some (createUser insertUser s).1, (createUser insertUser s).2) /\
  (createUser insertUser s).1 !! "id" = Some (VNum (userIdCounter s)) /\
  (forall f, f <> "id" -> (createUser insertUser s).1 !! f = insertUser !! f) /\
  (forall k u, users s !! k = Some u ->
     (getUser k (createUser insertUser s).2).1 = Some u).
Proof.
  intros Hwf. split; [|split; [|split]].
  - unfold getUser. simpl. rewrite lookup_insert_eq. reflexivity.
  - rewrite createUser_lookup. reflexivity.
  - intros f Hf. rewrite createUser_lookup.
    destruct (String.eqb_spec "id" f); [congruence|reflexivity].
  - intros k u Hk. unfold getUser. simpl.
    rewrite lookup_insert_ne; [exact Hk|].
    assert (k < userIdCounter s)%Z by (apply Hwf; eauto). lia.
Qed.

Lemma one_user_wf : users_wf one_user.
Proof.
  intros k [u Hk]. unfold one_user in *. simpl in *.
  destruct (decide (k = 1%Z)) as [->|Hne]; [lia|].
  rewrite lookup_insert_ne in Hk by congruence.
  rewrite lookup_empty in Hk. discriminate.
Qed.

Lemma createUser_read_back_witness :
  getUser 2 (createUser alice_again one_user).2
  = (Some (createUser alice_again one_user).1, (createUser alice_again one_user).2) /\
  (createUser alice_again one_user).1 !! "id" = Some (VNum 2) /\
  (forall f, f <> "id" -> (createUser alice_again one_user).1 !! f = alice_again !! f) /\
  (forall k u, users one_user !! k = Some u ->
     (getUser k (createUser alice_again one_user).2).1 = Some u).
Proof. apply (createUser_read_back alice_again one_user). exact one_user_wf. Defined.

(** X8.  [getUserByUsername] leaves the store as it is.  When it returns a
    user, that user is stored, has the name asked for, and has the least id
    among the stored users with that name; when it returns undefined, no
    stored user has that name. *)
Theorem getUserByUsername_first (username : string) (s : UserStorage) :
  (getUserByUsername username s).2 = s /\
  match (getUserByUsername username s).1 with
  | Some u =>
      exists k,
        users s !! k = Some u /\
        u !! "username" = Some (VStr username) /\
        forall k' u',
          users s !! k' = Some u' ->
          u' !! "username" = Some (VStr username) ->
          (k <= k')%Z
  | None =>
      forall k u, users s !! k = Some u -> u !! "username" <> Some (VStr username)
  end.
Proof.
  split; [reflexivity|].
  assert (Hname : forall u, username_is u username = true <->
                            u !! "username" = Some (VStr username)).
  { intros u. unfold username_is. split.
    - destruct (u !! "username") as [[]|]; try discriminate.
      intros H. apply String.eqb_eq in H. congruence.
    - intros ->. apply String.eqb_refl. }
  unfold getUserByUsername. cbn [fst]. unfold values_ascending.
  pose proof (find_ascending (fun k => users s !! k)
                (fun user => username_is user username)
                (keys_ascending (users s))
                (keys_ascending_sorted (users s))) as H.
  destruct (List.find _ _) as [u|].
  - destruct H as (k & _ & Hk & Hp & Hmin). exists k.
    split; [exact Hk|]. split; [apply Hname, Hp|].
    intros k' u' Hk' Hu'. apply (Hmin k' u').
    + apply keys_ascending_elem. eauto.
    + exact Hk'.
    + apply Hname, Hu'.
  - intros k u Hk Hu. apply Hname in Hu.
    rewrite (H k u) in Hu; [discriminate| |exact Hk].
    apply keys_ascending_elem. eauto.
Qed.

(** X9.  [createUser] does not look at the name: it succeeds for a name
    that is taken.  On a store whose ids all came from the counter, a lookup
    by name after a creation returns the user it returned before if there was
    one, else the new user if it has that name, else undefined. *)
Theorem getUserByUsername_after_createUser (username : string)
  (insertUser : obj) (s : UserStorage) :
  users_wf s ->
  (getUserByUsername username (createUser insertUser s).2).1 =
  match (getUserByUsername username s).1 with
  | Some u => Some u
  | None =>
      if username_is insertUser username
      then Some (createUser insertUser s).1
      else None
  end.
Proof.
  intros Hwf. unfold getUserByUsername. cbn [fst].
  change (users (createUser insertUser s).2)
    with (<[userIdCounter s := (createUser insertUser s).1]> (users s)).
  rewrite (values_ascending_insert_new (users s) (userIdCounter s) _ Hwf).
  rewrite find_snoc, createUser_username. reflexivity.
Qed.

Lemma getUserByUsername_after_createUser_witness :
  (getUserByUsername "alice" (createUser alice_again one_user).2).1 =
  match (getUserByUsername "alice" one_user).1 with
  | Some u => Some u
  | None =>
      if username_is alice_again "alice"
      then Some (createUser alice_again one_user).1
      else None
  end.
Proof.
  apply (getUserByUsername_after_createUser "alice" alice_again one_user).
  exact one_user_wf.
Defined.

(** The two registrations: both are stored, and the name still answers with
    the first. *)
Example alice_twice :
  let s := (createUser alice_again one_user).2 in
  (getUserByUsername "alice" s).1 = Some (createUser alice new_UserStorage).1 /\
  (fun u => u !! "password") <$> (getUser 2 s).1 = Some (Some (VStr "second")).
Proof. vm_compute. split; reflexivity. Qed.

(** * Properties of the track view *)

(** ** The title *)

Lemma append_cons (c : Ascii.ascii) (x y : string) :
  String c x ++ y = String c (x ++ y).
Proof. reflexivity. Qed.

Lemma append_nil (y : string) : "" ++ y = y.
Proof. reflexivity. Qed.

Lemma extension_split (s : string) :
  extension_removed s ++ default "" (extension_match s) = s.
Proof.
  induction s as [|c rest IH].
  - reflexivity.
  - cbn [extension_removed extension_match].
    destruct (extension_here (String c rest)).
    + reflexivity.
    + rewrite append_cons. f_equal. exact IH.
Qed.

Lemma extension_match_shape (s e : string) :
  extension_match s = Some e ->
  exists c body, e = String "." (String c body) /\
                 all_plain (String c body) = true.
Proof.
  induction s as [|c rest IH]; cbn [extension_match].
  - simpl. discriminate.
  - destruct (extension_here (String c rest)) eqn:E.
    + intros H. injection H as <-.
      unfold extension_here in E. destruct rest as [|c' body]; [discriminate|].
      apply andb_true_iff in E as [Hc Hp]. apply Ascii.eqb_eq in Hc as ->.
      eauto.
    + exact IH.
Qed.

Lemma all_plain_dot (p body : string) :
  all_plain (p ++ String "." body) = false.
Proof.
  induction p as [|c p IH].
  - reflexivity.
  - rewrite append_cons. cbn [all_plain]. rewrite IH. apply andb_false_r.
Qed.

Lemma extension_here_prefix (c : Ascii.ascii) (p body : string) :
  extension_here (String c (p ++ String "." body)) = false.
Proof.
  unfold extension_here.
  destruct (p ++ String "." body) as [|c' rest] eqn:E; [reflexivity|].
  rewrite <- E, all_plain_dot. apply andb_false_r.
Qed.

(** X10.  The title of an extended mix is the file name with " (Extended
    Mix)" put in before its extension: the part before and the extension
    after, joined, are the file name again, and the extension is either empty
    or a dot followed by one or more characters none of which is a dot or a
    slash.  The title of the original is the file name. *)
Theorem displayTitle_v1_shape (originalFilename : string) :
  displayTitle_v1 originalFilename Original = originalFilename /\
  exists stem ext,
    displayTitle_v1 originalFilename Extended
    = stem ++ " (Extended Mix)" ++ ext /\
    stem ++ ext = originalFilename /\
    (ext = "" \/
     exists c body, ext = String "." (String c body) /\
                    all_plain (String c body) = true).
Proof.
  split; [reflexivity|].
  exists (extension_removed originalFilename),
         (default "" (extension_match originalFilename)).
  split; [reflexivity|]. split; [apply extension_split|].
  destruct (extension_match originalFilename) as [e|] eqn:E.
  - right. apply (extension_match_shape _ _ E).
  - left. reflexivity.
Qed.

(** X11.  The extension is what follows the last dot: for a file name
    [stem.body] whose [body] is not empty and has no dot and no slash, the
    titles are [stem (Extended Mix).body] and, in the multi-version variant,
    [stem (Extended Mix vN).body] with N the version index plus one; [stem]
    itself may contain dots and slashes. *)
Theorem displayTitle_last_dot (stem body : string) (version : N) :
  body <> "" ->
  all_plain body = true ->
  displayTitle_v1 (stem ++ String "." body) Extended
  = stem ++ " (Extended Mix)" ++ String "." body /\
  displayTitle (stem ++ String "." body) Extended version
  = stem ++ " (Extended Mix v" ++ pretty (version + 1)%N ++ ")"
    ++ String "." body.
Proof.
  intros Hne Hp.
  assert (H : extension_removed (stem ++ String "." body) = stem /\
              extension_match (stem ++ String "." body)
              = Some (String "." body)).
  { induction stem as [|c stem IH].
    - rewrite append_nil. cbn [extension_removed extension_match].
      assert (E : extension_here (String "." body) = true).
      { destruct body as [|c' rest]; [contradiction|].
        unfold extension_here. rewrite Hp. reflexivity. }
      rewrite E. split; reflexivity.
    - rewrite append_cons. cbn [extension_removed extension_match].
      rewrite extension_here_prefix.
      destruct IH as [-> ->]. split; reflexivity. }
  destruct H as [Hr Hm].
  unfold displayTitle_v1, displayTitle. rewrite Hr, Hm. split; reflexivity.
Qed.

Lemma displayTitle_last_dot_witness :
  displayTitle_v1 ("mixes/2024.05/song.final" ++ String "." "mp3") Extended
  = "mixes/2024.05/song.final" ++ " (Extended Mix)" ++ String "." "mp3" /\
  displayTitle ("mixes/2024.05/song.final" ++ String "." "mp3") Extended 2
  = "mixes/2024.05/song.final" ++ " (Extended Mix v" ++ pretty (2 + 1)%N ++ ")"
    ++ String "." "mp3".
Proof.
  apply (displayTitle_last_dot "mixes/2024.05/song.final" "mp3" 2).
  - discriminate.
  - reflexivity.
Defined.

(** Names without an extension the pattern accepts: nothing after the dot,
    a slash after the last dot, no dot at all. *)
Example displayTitle_edge_cases :
  displayTitle_v1 "song." Extended = "song. (Extended Mix)" /\
  displayTitle_v1 "v1.2/song" Extended = "v1.2/song (Extended Mix)" /\
  displayTitle_v1 "song" Extended = "song (Extended Mix)" /\
  displayTitle_v1 ".hidden" Extended = " (Extended Mix).hidden" /\
  displayTitle "a.tar.gz" Extended 0 = "a.tar (Extended Mix v1).gz".
Proof. repeat split; reflexivity. Qed.

(** ** The version cards *)

Lemma extendedPaths_length_or_1_nonempty (t : obj) :
  extendedPaths t <> [] ->
  extendedPaths_length_or_1 t = Z.of_nat (length (extendedPaths t)).
Proof.
  unfold extendedPaths_length_or_1, extendedPaths.
  destruct (t !! "extendedPaths") as [[| | | | |[|x l]|]|]; congruence.
Qed.

Lemma extendedPaths_length_or_1_empty (t : obj) :
  extendedPaths t = [] -> extendedPaths_length_or_1 t = 1%Z.
Proof.
  unfold extendedPaths_length_or_1, extendedPaths.
  destruct (t !! "extendedPaths") as [[| | | | |[|x l]|]|]; try reflexivity.
  discriminate.
Qed.

Lemma cards_of_reverse (l : list value) :
  imap (fun idx path => ((Z.of_nat (length l) - Z.of_nat idx - 1)%Z, path))
       (reverse l)
  = reverse (imap (fun i path => (Z.of_nat i, path)) l).
Proof.
  induction l as [|x l IH] using rev_ind.
  - reflexivity.
  - rewrite reverse_snoc, imap_cons, imap_app, reverse_app.
    cbn [imap reverse]. rewrite length_app. cbn [length].
    change (reverse [(Z.of_nat (length l + 0), x)])
      with [(Z.of_nat (length l + 0), x)].
    cbn [app]. f_equal.
    + f_equal. lia.
    + rewrite <- IH. apply imap_ext. intros i y _. cbn. f_equal. lia.
Qed.

(** X12.  The version cards are the versions of the track, each with its
    position in [extendedPaths], the newest first: a card's index is the
    index of its path, so its download and audio links name the version it
    shows. *)
Theorem version_cards_indices (track : obj) :
  version_cards track
  = reverse (imap (fun i path => (Z.of_nat i, path)) (extendedPaths track)).
Proof.
  unfold version_cards.
  destruct (extendedPaths track) as [|x l] eqn:E.
  - reflexivity.
  - rewrite extendedPaths_length_or_1_nonempty by congruence.
    rewrite E. apply cards_of_reverse.
Qed.

(** X13.  [newVersion] is the number of versions less one, and 0 when the
    track has none: it is never negative.  When the track has versions it is
    the index of the last of them, which is also the index on the first card;
    when it has none, it is 0 although there is no version 0 and no card. *)
Theorem newVersion_is_newest (updatedTrack : obj) :
  newVersion updatedTrack
  = Z.max 0 (Z.of_nat (length (extendedPaths updatedTrack)) - 1) /\
  match extendedPaths updatedTrack with
  | [] =>
      newVersion updatedTrack = 0%Z /\
      extendedPaths updatedTrack !! Z.to_nat (newVersion updatedTrack) = None /\
      version_cards updatedTrack = []
  | _ :: earlier => newVersion updatedTrack = Z.of_nat (length earlier)
  end /\
  (0 <= newVersion updatedTrack)%Z /\
  extendedPaths updatedTrack !! Z.to_nat (newVersion updatedTrack)
  = last (extendedPaths updatedTrack) /\
  head (version_cards updatedTrack)
  = (fun path => (newVersion updatedTrack, path))
      <$> last (extendedPaths updatedTrack).
Proof.
  unfold newVersion, version_cards.
  destruct (extendedPaths updatedTrack) as [|x l] eqn:E.
  - rewrite (extendedPaths_length_or_1_empty _ E).
    split; [reflexivity|]. split; [repeat split; reflexivity|].
    split; [lia|]. split; reflexivity.
  - rewrite extendedPaths_length_or_1_nonempty by congruence. rewrite E.
    split; [cbn [length]; lia|].
    split; [cbn [length]; lia|].
    split; [cbn [length]; lia|]. split.
    + rewrite last_lookup. f_equal. cbn [length]. lia.
    + destruct (reverse (x :: l)) as [|y r] eqn:Er.
      * apply (f_equal reverse) in Er. rewrite reverse_involutive in Er.
        discriminate.
      * assert (Hl : x :: l = (reverse r ++ [y])%list).
        { rewrite <- reverse_cons, <- Er, reverse_involutive. reflexivity. }
        rewrite Hl, last_snoc. cbn. do 2 f_equal. lia.
Qed.

(** ** The regenerate button at work *)

Lemma run_ticks_processing (n : nat) (rest : list poll_answer) (v : view) :
  view_polling v = true ->
  run_ticks tick_v2 (replicate n still_processing ++ rest) v
  = run_ticks tick_v2 rest v.
Proof.
  intros Hp. induction n as [|n IH]; [reflexivity|].
  cbn [replicate app run_ticks]. rewrite Hp. exact IH.
Qed.

(** X14.  In the second variant, once the interval is set, the polling
    goes on through the answers "processing" and ends at the first answer that
    is anything else: the interval is cleared, [isProcessing] is false, and
    exactly one toast is added, the success toast if the status is "completed"
    and the error toast otherwise (any other status, or a failed request).
    What would have been answered later has no effect. *)
Theorem polling_ends_at_first_outcome (n : nat) (answer : poll_answer)
  (later : list poll_answer) (v : view) :
  view_polling v = true ->
  answer <> still_processing ->
  run_ticks tick_v2 (replicate n still_processing ++ answer :: later) v
  = {| view_track := view_track v; view_isProcessing := false;
       view_polling := false;
       view_toasts := view_toasts v ++ [final_toast answer] |}.
Proof.
  intros Hp Hne. rewrite run_ticks_processing by exact Hp.
  cbn [run_ticks]. rewrite Hp.
  assert (Hstop : tick_v2 answer v
                  = {| view_track := view_track v; view_isProcessing := false;
                       view_polling := false;
                       view_toasts := view_toasts v ++ [final_toast answer] |}).
  { destruct answer as [status|]; [|reflexivity].
    unfold tick_v2, final_toast.
    destruct (value_is status "completed") eqn:Ec; [reflexivity|].
    destruct (value_is status "processing") eqn:Epr; [|reflexivity].
    destruct Hne. unfold still_processing. f_equal.
    destruct status; try discriminate.
    simpl in Epr. apply String.eqb_eq in Epr. congruence. }
  rewrite Hstop. destruct later; reflexivity.
Qed.

Lemma polling_ends_at_first_outcome_witness :
  run_ticks tick_v2
    (replicate 3 still_processing
     ++ AnswerStatus (VStr "failed") :: [AnswerStatus (VStr "completed")])
    (click_v2 PostOk view_at_rest)
  = {| view_track := view_track (click_v2 PostOk view_at_rest);
       view_isProcessing := false;
       view_polling := false;
       view_toasts :=
         view_toasts (click_v2 PostOk view_at_rest)
         ++ [final_toast (AnswerStatus (VStr "failed"))] |}.
Proof.
  apply (polling_ends_at_first_outcome 3 (AnswerStatus (VStr "failed"))
           [AnswerStatus (VStr "completed")] (click_v2 PostOk view_at_rest)).
  - reflexivity.
  - discriminate.
Defined.

(** X15.  In TrackView.tsx the polling callback acts on "completed" only:
    whatever is answered, as long as no answer has status "completed", every
    callback leaves the component as it was, so a failed generation or a
    failing request is never shown and, after an accepted click, the button
    stays disabled. *)
Theorem polling_v1_waits_for_completed (audio : bool)
  (answers : list poll_answer) (v : view) :
  forallb (fun a => negb (completed_answer a)) answers = true ->
  foldl (fun v' a => tick_v1 audio a v') v answers = v /\
  run_ticks (tick_v1 audio) answers (click_v1 PostOk v) = click_v1 PostOk v /\
  regenerate_disabled_v1
    (view_track (run_ticks (tick_v1 audio) answers (click_v1 PostOk v)))
    (view_isProcessing (run_ticks (tick_v1 audio) answers (click_v1 PostOk v)))
  = true.
Proof.
  intros Hall.
  assert (Htick : forall a v', a ∈ answers -> tick_v1 audio a v' = v').
  { intros a v' Ha. rewrite forallb_forall in Hall.
    apply list_elem_of_In in Ha. specialize (Hall a Ha).
    apply negb_true_iff in Hall.
    destruct a as [status|]; [|reflexivity].
    unfold tick_v1. simpl in Hall. rewrite Hall. reflexivity. }
  assert (Hrun : forall v', run_ticks (tick_v1 audio) answers v' = v').
  { clear Hall. induction answers as [|a rest IH]; intros v'; [reflexivity|].
    cbn [run_ticks]. destruct (view_polling v'); [|reflexivity].
    rewrite Htick by left.
    apply IH. intros a' v'' Ha'. apply Htick. right. exact Ha'. }
  split; [|split].
  - clear Hall Hrun. revert v. induction answers as [|a rest IH]; intros v.
    + reflexivity.
    + cbn [foldl]. rewrite Htick by left.
      apply IH. intros a' v'' Ha'. apply Htick. right. exact Ha'.
  - apply Hrun.
  - rewrite Hrun. unfold regenerate_disabled_v1. apply orb_true_r.
Qed.

Lemma polling_v1_waits_for_completed_witness :
  foldl (fun v' a => tick_v1 true a v') view_at_rest
    [still_processing; AnswerStatus (VStr "failed"); AnswerRejected]
  = view_at_rest /\
  run_ticks (tick_v1 true)
    [still_processing; AnswerStatus (VStr "failed"); AnswerRejected]
    (click_v1 PostOk view_at_rest)
  = click_v1 PostOk view_at_rest /\
  regenerate_disabled_v1
    (view_track
       (run_ticks (tick_v1 true)
          [still_processing; AnswerStatus (VStr "failed"); AnswerRejected]
          (click_v1 PostOk view_at_rest)))
    (view_isProcessing
       (run_ticks (tick_v1 true)
          [still_processing; AnswerStatus (VStr "failed"); AnswerRejected]
          (click_v1 PostOk view_at_rest)))
  = true.
Proof.
  apply (polling_v1_waits_for_completed true
           [still_processing; AnswerStatus (VStr "failed"); AnswerRejected]
           view_at_rest).
  reflexivity.
Defined.

(** X16.  A click whose request is refused or fails: every variant shows
    the error toast and sets [isProcessing] back to false.  The later variants
    leave the track as it was, so the button is enabled again exactly if the
    track was not processing; TrackView.tsx has already written "processing"
    into the track and does not undo it, so there the button stays
    disabled. *)
Theorem click_refused (post : post_outcome) (v : view) :
  post <> PostOk ->
  view_isProcessing (click_v1 post v) = false /\
  view_isProcessing (click_v2 post v) = false /\
  view_toasts (click_v1 post v) = (view_toasts v ++ [ToastError])%list /\
  view_toasts (click_v2 post v) = (view_toasts v ++ [ToastError])%list /\
  view_track (click_v2 post v) = view_track v /\
  regenerate_disabled_v1 (view_track (click_v2 post v))
    (view_isProcessing (click_v2 post v))
  = status_is (view_track v) "processing" /\
  regenerate_disabled_v1 (view_track (click_v1 post v))
    (view_isProcessing (click_v1 post v))
  = true.
Proof.
  intros Hpost. destruct post; [contradiction| |];
    (repeat split; try reflexivity;
     unfold regenerate_disabled_v1, status_is; simpl;
     try rewrite lookup_insert_eq; try reflexivity;
     destruct (view_track v !! "status") as [[]|]; try reflexivity;
     apply orb_false_r).
Qed.

Lemma click_refused_witness :
  view_isProcessing (click_v1 PostNotOk view_at_rest) = false /\
  view_isProcessing (click_v2 PostNotOk view_at_rest) = false /\
  view_toasts (click_v1 PostNotOk view_at_rest)
  = (view_toasts view_at_rest ++ [ToastError])%list /\
  view_toasts (click_v2 PostNotOk view_at_rest)
  = (view_toasts view_at_rest ++ [ToastError])%list /\
  view_track (click_v2 PostNotOk view_at_rest) = view_track view_at_rest /\
  regenerate_disabled_v1 (view_track (click_v2 PostNotOk view_at_rest))
    (view_isProcessing (click_v2 PostNotOk view_at_rest))
  = status_is (view_track view_at_rest) "processing" /\
  regenerate_disabled_v1 (view_track (click_v1 PostNotOk view_at_rest))
    (view_isProcessing (click_v1 PostNotOk view_at_rest))
  = true.
Proof. apply (click_refused PostNotOk view_at_rest). discriminate. Defined.

(** * Properties of the page state *)

(** ** Printing and reading a number *)

Lemma small_nat (k : nat) :
  (k < 10)%nat ->
  k = 0%nat \/ k = 1%nat \/ k = 2%nat \/ k = 3%nat \/ k = 4%nat \/
  k = 5%nat \/ k = 6%nat \/ k = 7%nat \/ k = 8%nat \/ k = 9%nat.
Proof.
  intros H.
  do 10 (destruct k as [|k]; [tauto|]).
  lia.
Qed.

Lemma small_digit (d : N) :
  (d < 10)%N ->
  d = 0%N \/ d = 1%N \/ d = 2%N \/ d = 3%N \/ d = 4%N \/ d = 5%N \/
  d = 6%N \/ d = 7%N \/ d = 8%N \/ d = 9%N.
Proof.
  intros H.
  destruct (small_nat (N.to_nat d)) as [E|[E|[E|[E|[E|[E|[E|[E|[E|E]]]]]]]]];
    [lia|..];
    apply (f_equal N.of_nat) in E; rewrite N2Nat.id in E; rewrite E; simpl;
    tauto.
Qed.

Ltac each_digit d H :=
  destruct (small_digit d H)
    as [->|[->|[->|[->|[->|[->|[->|[->|[->| ->]]]]]]]]].

Lemma digit_of_pretty (d : N) :
  (d < 10)%N -> digit_of (pretty_N_char d) = Some d.
Proof. intros H. each_digit d H; reflexivity. Qed.

Lemma trim_start_digit (d : N) (rest : string) :
  (d < 10)%N ->
  trim_start (String (pretty_N_char d) rest) = String (pretty_N_char d) rest.
Proof. intros H. each_digit d H; reflexivity. Qed.

Lemma pretty_N_go_head (x : N) (s : string) :
  (0 < x)%N ->
  exists d rest, (d < 10)%N /\ pretty_N_go x s = String (pretty_N_char d) rest.
Proof.
  revert s. induction (N.lt_wf_0 x) as [x _ IH]; intros s Hx.
  rewrite pretty_N_go_step by exact Hx.
  destruct (decide (x `div` 10 = 0)%N) as [E|E].
  - rewrite E, pretty_N_go_0. exists (x `mod` 10)%N, s.
    split; [apply N.mod_lt; lia|reflexivity].
  - apply IH; [apply N.div_lt; lia|apply N.neq_0_lt_0, E].
Qed.

Lemma pretty_N_go_digits (x : N) (s : string) :
  (0 < x)%N ->
  exists m, forall acc,
    digits_from acc (pretty_N_go x s) = digits_from (acc * m + x) s.
Proof.
  revert s. induction (N.lt_wf_0 x) as [x _ IH]; intros s Hx.
  rewrite pretty_N_go_step by exact Hx.
  assert (Hd : (x `mod` 10 < 10)%N) by (apply N.mod_lt; lia).
  pose proof (N.div_mod x 10 ltac:(lia)) as Hdm.
  destruct (decide (x `div` 10 = 0)%N) as [E|E].
  - rewrite E, pretty_N_go_0. exists 10%N. intros acc.
    cbn [digits_from]. rewrite (digit_of_pretty _ Hd). f_equal. lia.
  - assert (Hlt : (x `div` 10 < x)%N) by (apply N.div_lt; lia).
    assert (Hpos : (0 < x `div` 10)%N) by (apply N.neq_0_lt_0, E).
    destruct (IH _ Hlt (String (pretty_N_char (x `mod` 10)) s) Hpos) as [m Hm].
    exists (10 * m)%N. intros acc. rewrite Hm.
    cbn [digits_from]. rewrite (digit_of_pretty _ Hd). f_equal. lia.
Qed.

Lemma parse_digits_pretty (x : N) :
  (0 < x)%N -> parse_digits (pretty_N_go x "") = Some x.
Proof.
  intros Hx.
  destruct (pretty_N_go_head x "" Hx) as (d & rest & Hd & Hhead).
  destruct (pretty_N_go_digits x "" Hx) as [m Hm].
  unfold parse_digits. rewrite Hhead, (digit_of_pretty _ Hd), <- Hhead, Hm.
  cbn [digits_from]. f_equal; lia.
Qed.

Lemma parseInt_pretty (n : Z) :
  n <> 0%Z -> (Z.abs n < unsafe_from)%Z -> parseInt (pretty n) = Num n.
Proof.
  intros Hn Hsafe. destruct n as [|p|p]; [contradiction| |].
  - change (pretty (Z.pos p)) with (pretty_N_go (N.pos p) "").
    destruct (pretty_N_go_head (N.pos p) "" ltac:(lia)) as (d & rest & Hd & Hhead).
    pose proof (parse_digits_pretty (N.pos p) ltac:(lia)) as Hparse.
    assert (Hread : number_read false (Some (N.pos p)) = Num (Z.pos p)).
    { unfold number_read. change (Z.of_N (N.pos p)) with (Z.pos p).
      change (Z.abs (Z.pos p)) with (Z.pos p) in Hsafe.
      apply Z.ltb_lt in Hsafe. rewrite Hsafe. reflexivity. }
    rewrite Hhead in *. unfold parseInt. rewrite (trim_start_digit _ _ Hd).
    each_digit d Hd; cbn [pretty_N_char] in *; rewrite Hparse; exact Hread.
  - change (pretty (Z.neg p)) with (String "-" (pretty_N_go (N.pos p) "")).
    unfold parseInt. cbn [trim_start].
    change (ascii_space "-") with false. cbv iota.
    change (Ascii.eqb "-" "194") with false.
    change (Ascii.eqb "-" "225" || Ascii.eqb "-" "226" || Ascii.eqb "-" "227"
            || Ascii.eqb "-" "239") with false.
    cbv iota.
    rewrite (parse_digits_pretty (N.pos p)) by lia.
    unfold number_read. change (Z.of_N (N.pos p)) with (Z.pos p).
    change (Z.abs (Z.neg p)) with (Z.pos p) in Hsafe.
    apply Z.ltb_lt in Hsafe. rewrite Hsafe. reflexivity.
Qed.

(** X17.  For a selection that is null, NaN or an integer smaller than 2^53
    in size, reloading the page restores from [localStorage] what the effects
    wrote there: the selected track id, for every such id other than 0, and
    the [isProcessed] flag.  [isProcessing] is not kept and starts as false;
    an id of 0, NaN and no selection all come back as no selection.  What
    else was in the storage before does not matter. *)
Theorem selection_survives_reload (h : home) (ls : gmap string string) :
  printable (currentTrackId h) = true ->
  initial_home <$> persist h ls
  = Some {| currentTrackId :=
              if truthy (currentTrackId h) then currentTrackId h else NumNull;
            home_isProcessing := false;
            isProcessed := isProcessed h |}.
Proof.
  intros Hexact. unfold persist.
  assert (Hflag : forall m : gmap string string,
             (<["isProcessed" := if isProcessed h then "true" else "false"]> m)
               !! "isProcessed"
             = Some (if isProcessed h then "true" else "false")).
  { intros m. apply lookup_insert_eq. }
  assert (Hsaved : String.eqb (if isProcessed h then "true" else "false") "true"
                   = isProcessed h).
  { destruct (isProcessed h); reflexivity. }
  destruct (currentTrackId h) as [| |n|] eqn:Eid.
  - cbn [fmap option_fmap option_map]. f_equal. unfold initial_home.
    rewrite Hflag, Hsaved, lookup_insert_ne by discriminate.
    rewrite lookup_delete_eq. reflexivity.
  - cbn [fmap option_fmap option_map]. f_equal. unfold initial_home.
    rewrite Hflag, Hsaved, lookup_insert_ne by discriminate.
    rewrite lookup_delete_eq. reflexivity.
  - rewrite Hexact. cbn [fmap option_fmap option_map]. f_equal.
    unfold initial_home.
    rewrite Hflag, Hsaved, lookup_insert_ne by discriminate.
    destruct (truthy (Num n)) eqn:Et.
    + rewrite lookup_insert_eq.
      assert (Hn : n <> 0%Z).
      { simpl in Et. apply negb_true_iff, Z.eqb_neq in Et. exact Et. }
      assert (Hsafe : (Z.abs n < unsafe_from)%Z).
      { simpl in Hexact. apply Z.ltb_lt in Hexact. exact Hexact. }
      assert (Hne : String.eqb (pretty n) "" = false).
      { apply String.eqb_neq. intros E.
        pose proof (parseInt_pretty n Hn Hsafe) as Hp. rewrite E in Hp.
        discriminate. }
      rewrite Hne, (parseInt_pretty n Hn Hsafe). reflexivity.
    + rewrite lookup_delete_eq. reflexivity.
  - discriminate.
Qed.

Lemma selection_survives_reload_witness :
  initial_home <$> persist home_42 stale_storage
  = Some {| currentTrackId :=
              if truthy (currentTrackId home_42) then currentTrackId home_42
              else NumNull;
            home_isProcessing := false;
            isProcessed := isProcessed home_42 |}.
Proof. apply (selection_survives_reload home_42 stale_storage). reflexivity. Defined.

(** Reading what others may have left in the storage. *)
Example parseInt_examples :
  parseInt "42" = Num 42 /\
  parseInt "  -7px" = Num (-7) /\
  parseInt "+15" = Num 15 /\
  parseInt "007" = Num 7 /\
  parseInt "abc" = NumNaN /\
  parseInt "-" = NumNaN /\
  parseInt "1e3" = Num 1 /\
  parseInt (String "194" (String "160" "5")) = Num 5 /\
  parseInt "9007199254740991" = Num 9007199254740991 /\
  parseInt "9007199254740993" = NumLarge /\
  parseInt "1000000000000000000000" = NumLarge /\
  currentTrackId (initial_home stale_storage) = NumLarge.
Proof. repeat split; reflexivity. Qed.

(** * What the store holds after a run *)

Lemma perform_ids_exact (c : store_call) (s : MemStorage) :
  (1 <= trackIdCounter s)%Z -> ids_exact s -> ids_exact (perform c s).2.
Proof.
  intros Hone He k. destruct c as [track|id update|id|uid]; simpl.
  - destruct (decide (k = trackIdCounter s)) as [->|Hne].
    + rewrite lookup_insert_eq. split; [lia|eauto].
    + rewrite lookup_insert_ne by congruence. rewrite (He k). lia.
  - destruct (tracks s !! id) as [t|] eqn:Ht.
    + rewrite (updateAudioTrack_present _ _ _ _ Ht). simpl.
      destruct (decide (k = id)) as [->|Hne].
      * rewrite lookup_insert_eq. split; [|eauto].
        intros _. apply He. eauto.
      * rewrite lookup_insert_ne by congruence. apply He.
    + rewrite (updateAudioTrack_absent _ _ _ Ht). apply He.
  - apply He.
  - apply He.
Qed.

Lemma run_calls_ids_exact (cs : list store_call) (s : MemStorage) :
  (1 <= trackIdCounter s)%Z -> ids_exact s -> ids_exact (run_calls cs s).
Proof.
  revert s. induction cs as [|c cs' IH]; intros s Hone He; simpl.
  - exact He.
  - apply IH; [|apply perform_ids_exact; assumption].
    pose proof (perform_counter_mono c s). lia.
Qed.

(** X18.  No call loses a track or leaves a gap: after any run of calls on
    a fresh store, [getAudioTrack(k)] finds a record exactly for the ids from
    1 to the number of creations of the run. *)
Theorem stored_ids_are_1_to_n (cs : list store_call) (k : Z) :
  is_Some (getAudioTrack k (run_calls cs new_MemStorage)).1 <->
  (1 <= k <= Z.of_nat (length (List.filter is_create cs)))%Z.
Proof.
  unfold getAudioTrack. cbn [fst].
  assert (He : ids_exact (run_calls cs new_MemStorage)).
  { apply run_calls_ids_exact; [simpl; lia|].
    intros k'. simpl. rewrite lookup_empty.
    split; [intros [x Hx]; discriminate|lia]. }
  rewrite (He k).
  destruct (created_ids_counter cs new_MemStorage) as [_ ->]. simpl. lia.
Qed.
